(** * aicore: the action scheduler and the steering pipeline

    A shallow embedding of [src/src/action.cpp] (ActionManager) and
    [src/src/steerpipe.cpp] (Goal, SteeringPipe, AvoidSpheresConstraint),
    with the properties of the specification stated over it.

    Modelling conventions.
    - The intrusive singly linked lists threaded through [Action::next]
      are Rocq lists; the head of the list is the object the manager's
      pointer designates.
    - [real] (a C float) is modelled by the rationals [Q] where the code
      only compares and copies values (priorities), by an arbitrary type
      carrying a comparison where the pipeline only needs [<], and by
      the single-precision format itself where the code computes: every
      operation of the source is one correctly rounded operation of
      [SpecFloat], in the order the source writes them.
    - Virtual member functions are the fields of a class or record of
      functions; a member function that may change the object it is
      called on returns the new object. *)

From Stdlib Require Import List Bool Arith Lia ZArith QArith Lqa.
From Stdlib Require Import SpecFloat.
From Stdlib Require Import Permutation.
Import ListNotations.

Set Implicit Arguments.

(* ================================================================== *)
(** * Comparisons on [real] as used by the scheduler *)

Definition Qltb (a b : Q) : bool := negb (Qle_bool b a).
Definition Qgtb (a b : Q) : bool := Qltb b a.

(* ================================================================== *)
(** * The action scheduler ([action.h], [action.cpp]) *)

Module Actions.

(** The virtual interface of [class Action].  [canDoBoth this other];
    [act] returns the action object after it did one tick of work. *)
Class ActionClass (A : Type) := {
  priority : A -> Q;
  canInterrupt : A -> bool;
  canDoBoth : A -> A -> bool;
  isComplete : A -> bool;
  act : A -> A
}.

(** [class ActionManager].  [deleted] is not a field of the C++ class: it
    records, oldest first, the action objects the manager has destroyed
    ([deleteList], [delete temp]). *)
Record ActionManager (A : Type) := mkManager {
  activePriority : Q;
  actionQueue : list A;
  active : list A;
  deleted : list A
}.

Arguments mkManager {A} _ _ _ _.

Section Manager.
Context {A : Type} `{ActionClass A}.

(** [ActionManager::ActionManager()] *)
Definition newManager : ActionManager A := mkManager 0 [] [] [].

(** The loop of [scheduleAction]: walk the queue until an entry of
    strictly lower priority is found and link the new action there. *)
Fixpoint insertAction (newAction : A) (queue : list A) : list A :=
  match queue with
  | [] => [newAction]
  | next :: rest =>
      if Qgtb (priority newAction) (priority next)
      then newAction :: next :: rest
      else next :: insertAction newAction rest
  end.

Definition scheduleAction (newAction : A) (m : ActionManager A) : ActionManager A :=
  mkManager (activePriority m) (insertAction newAction (actionQueue m))
            (active m) (deleted m).

(** The scan of [checkInterrupts]: the first interrupter found before
    the priorities drop below [activePriority], and the queue without it. *)
Fixpoint findInterrupter (ap : Q) (queue : list A) : option (A * list A) :=
  match queue with
  | [] => None
  | next :: rest =>
      if Qltb (priority next) ap then None
      else if canInterrupt next then Some (next, rest)
      else match findInterrupter ap rest with
           | Some (a, rest') => Some (a, next :: rest')
           | None => None
           end
  end.

(** [Action::deleteList]: the objects of a list in the order they are
    destroyed.  The function calls itself on [next] before it deletes
    [this], so the last action of the list goes first. *)
Definition deleteList (l : list A) : list A := rev l.

Definition checkInterrupts (m : ActionManager A) : ActionManager A :=
  match findInterrupter (activePriority m) (actionQueue m) with
  | Some (a, queue') =>
      mkManager (priority a) queue' [a] (deleted m ++ deleteList (active m))
  | None => m
  end.

(** The inner loop of [addAllToActive]:
    [while (inActive != NULL) { if (!inActive->canDoBoth(next) ||
    !next->canDoBoth(inActive)) goto nextInQueue; }].
    The body never moves [inActive], so the recursive call is on the
    same list; [fuel] bounds the number of times the body runs.
    [Some true]: the loop was left at its end (compatible);
    [Some false]: left by the goto; [None]: still running. *)
Fixpoint compatibleWithActive (fuel : nat) (inActive : list A) (next : A)
  : option bool :=
  match fuel with
  | O => None
  | S fuel' =>
      match inActive with
      | [] => Some true
      | a :: _ =>
          if negb (canDoBoth a next) || negb (canDoBoth next a)
          then Some false
          else compatibleWithActive fuel' inActive next
      end
  end.

(** The outer loop of [addAllToActive]; the result is the pair (queue
    that remains, active list).
    - After the goto the loop goes on with the rest of the queue.
    - When the inner loop ran to its end the action is unlinked from the
      queue and linked in front of the active list:
      [*previous = next->next; next->next = active; active = next;].
      The statement that follows, [next = next->next], reads the link
      that was just overwritten: [next] becomes the old head of the
      active list, not the next queued action.  The inner loop runs to
      its end only when [active] is null ([compatibleWithActive] answers
      [Some true] on the empty list only), so [next] is null here and the
      outer loop is left, with the rest of the queue not examined. *)
Fixpoint addLoop (fuel : nat) (queue : list A) (act_ : list A)
  : option (list A * list A) :=
  match queue with
  | [] => Some ([], act_)
  | next :: rest =>
      match compatibleWithActive fuel act_ next with
      | None => None
      | Some true => Some (rest, next :: act_)
      | Some false =>
          match addLoop fuel rest act_ with
          | Some (q', a') => Some (next :: q', a')
          | None => None
          end
      end
  end.

Definition addAllToActive (fuel : nat) (m : ActionManager A)
  : option (ActionManager A) :=
  match addLoop fuel (actionQueue m) (active m) with
  | Some (q', a') => Some (mkManager (activePriority m) q' a' (deleted m))
  | None => None
  end.

(** The loop of [runActive]: (actions kept, actions deleted). *)
Fixpoint runLoop (l : list A) : list A * list A :=
  match l with
  | [] => ([], [])
  | next :: rest =>
      let next' := act next in
      let (kept, dropped) := runLoop rest in
      if isComplete next' then (kept, next' :: dropped)
      else (next' :: kept, dropped)
  end.

Definition runActive (m : ActionManager A) : ActionManager A :=
  let (kept, dropped) := runLoop (active m) in
  mkManager (activePriority m) (actionQueue m) kept (deleted m ++ dropped).

(** [ActionManager::execute()] *)
Definition execute (fuel : nat) (m : ActionManager A) : option (ActionManager A) :=
  match addAllToActive fuel (checkInterrupts m) with
  | Some m' => Some (runActive m')
  | None => None
  end.

(** The queue is in descending order of priority. *)
Fixpoint sortedQueue (q : list A) : Prop :=
  match q with
  | [] => True
  | a :: rest =>
      match rest with
      | [] => True
      | b :: _ => (priority b <= priority a)%Q
      end /\ sortedQueue rest
  end.

(** The priority of the active set: the highest priority in it. *)
Definition isHighestPriority (p : Q) (l : list A) : Prop :=
  (exists a, In a l /\ (priority a == p)%Q) /\
  (forall a, In a l -> (priority a <= p)%Q).

End Manager.

(** A leaf action as the scheduler demo declares it ([DemoAction]: a
    countdown, a priority, an interrupt flag), with an override of
    [canDoBoth] that answers [both] whatever the other action is. *)
Record DemoAction := mkDemo {
  ident : nat;
  demoPriority : Q;
  interrupt : bool;
  both : bool;
  actCount : Z
}.

#[export] Instance DemoActionClass : ActionClass DemoAction := {
  priority := demoPriority;
  canInterrupt := interrupt;
  canDoBoth := fun this _ => both this;
  isComplete := fun a => (actCount a <=? 0)%Z;
  act := fun a => mkDemo (ident a) (demoPriority a) (interrupt a) (both a)
                         (actCount a - 1)
}.

(** The actions of the scenarios below. *)
Definition walkAction : DemoAction := mkDemo 1 5 false true 2.
Definition talkAction : DemoAction := mkDemo 2 10 false true 2.
Definition shoutAction : DemoAction := mkDemo 2 10 true false 2.
Definition aimAction : DemoAction := mkDemo 2 10 false false 2.
Definition idleAction : DemoAction := mkDemo 3 3 false false 1.
Definition waveAction : DemoAction := mkDemo 4 10 true true 2.

End Actions.

(* ================================================================== *)
(** * The steering pipeline ([steerpipe.h], [steerpipe.cpp]) *)

Module Pipeline.

Record Vector3 (real : Type) := mkVector3 { vx : real; vy : real; vz : real }.

(** [struct Goal]: four channels, each with its flag. *)
Record Goal (real : Type) := mkGoal {
  position : Vector3 real;
  positionSet : bool;
  orientation : real;
  orientationSet : bool;
  velocity : Vector3 real;
  velocitySet : bool;
  rotation : real;
  rotationSet : bool
}.

Record SteeringOutput (real : Type) := mkOutput {
  linear : Vector3 real;
  angular : real
}.

(** What stops a run short of its end: a failed [assert], or a call
    through the pointer [violatingConstraint] before it was assigned. *)
Inductive Fault := AssertionFailed | WildPointer.

Inductive Result (T : Type) :=
| Ok (t : T)
| Crash (f : Fault).

Arguments Ok {T} _.
Arguments Crash {T} _.

Definition bind {T U : Type} (r : Result T) (k : T -> Result U) : Result U :=
  match r with
  | Ok t => k t
  | Crash f => Crash f
  end.

Notation "x <- r ;; k" := (bind r (fun x => k))
  (at level 61, r at next level, right associativity).
Notation "' pat <- r ;; k" :=
  (bind r (fun x => match x with pat => k end))
  (at level 61, pat pattern, r at next level, right associativity).

Section Goals.
Context {real : Type}.

(** [Goal::clear] *)
Definition clear (g : Goal real) : Goal real :=
  mkGoal (position g) false (orientation g) false
         (velocity g) false (rotation g) false.

(** [Goal::Goal()]: the flags are cleared, the values are whatever the
    storage held ([uninit]). *)
Definition newGoal (uninit : Goal real) : Goal real := clear uninit.

(** [Goal::canMergeGoals] *)
Definition canMergeGoals (this goal : Goal real) : bool :=
  negb (positionSet this && positionSet goal
        || orientationSet this && orientationSet goal
        || velocitySet this && velocitySet goal
        || rotationSet this && rotationSet goal).

(** The four assignments of [Goal::updateGoal]. *)
Definition copyChannels (this goal : Goal real) : Goal real :=
  mkGoal
    (if positionSet goal then position goal else position this)
    (if positionSet goal then true else positionSet this)
    (if orientationSet goal then orientation goal else orientation this)
    (if orientationSet goal then true else orientationSet this)
    (if velocitySet goal then velocity goal else velocity this)
    (if velocitySet goal then true else velocitySet this)
    (if rotationSet goal then rotation goal else rotation this)
    (if rotationSet goal then true else rotationSet this).

(** [Goal::updateGoal]: [assert(canMergeGoals(goal))], then the copies. *)
Definition updateGoal (this goal : Goal real) : Result (Goal real) :=
  if canMergeGoals this goal then Ok (copyChannels this goal)
  else Crash AssertionFailed.

(** Some channel is set in both goals. *)
Definition sharedChannel (a b : Goal real) : Prop :=
  (positionSet a = true /\ positionSet b = true) \/
  (orientationSet a = true /\ orientationSet b = true) \/
  (velocitySet a = true /\ velocitySet b = true) \/
  (rotationSet a = true /\ rotationSet b = true).
End Goals.

Section Pipe.
Variable real : Type.
(** [a < b] on [real], and the constant [0]. *)
Variable rlt : real -> real -> bool.
Variable r0 : real.
(** Everything the components can reach through their own fields: the
    character, the game, their caches.  The [SteeringOutput] the caller
    passes to [getSteering] is not part of it: a component sees that
    object only when it is handed the pointer. *)
Variable World : Type.
(** The actuator's path object, with its virtual [getMaxPriority]. *)
Variable Path : Type.
Variable getMaxPriority : Path -> World -> real.

Record Targeter := mkTargeter {
  getGoal : World -> Goal real * World
}.

Record Decomposer := mkDecomposer {
  decomposeGoal : Goal real -> World -> Goal real * World
}.

Record Constraint := mkConstraint {
  willViolate : Path -> real -> World -> real * World;
  suggest : Path -> World -> Goal real * World
}.

Record Actuator := mkActuator {
  createPathObject : World -> Path * World;
  getPath : Path -> Goal real -> World -> Path * World;
  actuatorSteering : SteeringOutput real -> Path -> World
                     -> SteeringOutput real * World
}.

Record SteeringBehaviour := mkBehaviour {
  behaviourSteering : SteeringOutput real -> World
                      -> SteeringOutput real * World
}.

(** [class SteeringPipe]: the configuration. *)
Record SteeringPipe := mkPipe {
  actuator : Actuator;
  targeters : list Targeter;
  decomposers : list Decomposer;
  constraints : list Constraint;
  constraintSteps : nat;
  fallback : option SteeringBehaviour
}.

(** What a call of [getSteering] reads and writes: the world of the
    components, the pipe's [path] pointer (null until first use), the
    [suggestionUsed] flag of each constraint by position in the list,
    and the caller's output object. *)
Record PipeState := mkState {
  world : World;
  path : option Path;
  suggestionUsed : list bool;
  output : SteeringOutput real
}.

(** The calls made to the components, in the order they are made. *)
Inductive Event :=
| CallGetGoal (i : nat)
| CallDecomposeGoal (i : nat) (g : Goal real)
| CallCreatePathObject
| CallGetPath (g : Goal real)
| CallWillViolate (i : nat) (maxPriority : real)
| CallSuggest (i : nat)
| CallActuatorSteering (p : Path)
| CallFallback.

Fixpoint setFlag (i : nat) (b : bool) (flags : list bool) : list bool :=
  match flags, i with
  | [], _ => []
  | _ :: rest, O => b :: rest
  | f :: rest, S i' => f :: setFlag i' b rest
  end.

(** The targeter loop: fetch each goal and merge it if it can be merged. *)
Fixpoint runTargeters (i : nat) (ts : list Targeter) (goal : Goal real)
  (w : World) : Result (Goal real * World * list Event) :=
  match ts with
  | [] => Ok (goal, w, [])
  | t :: rest =>
      let (targeterResult, w1) := getGoal t w in
      goal1 <- (if canMergeGoals goal targeterResult
                   then updateGoal goal targeterResult
                   else Ok goal) ;;
      '(g, w2, ev) <- runTargeters (S i) rest goal1 w1 ;;
      Ok (g, w2, CallGetGoal i :: ev)
  end.

(** The decomposer loop. *)
Fixpoint runDecomposers (i : nat) (ds : list Decomposer) (goal : Goal real)
  (w : World) : Goal real * World * list Event :=
  match ds with
  | [] => (goal, w, [])
  | d :: rest =>
      let (goal1, w1) := decomposeGoal d goal w in
      let '(g, w2, ev) := runDecomposers (S i) rest goal1 w1 in
      (g, w2, CallDecomposeGoal i goal :: ev)
  end.

(** The locals of the constraint loop that outlive one pass. *)
Record Scan := mkScan {
  shortestViolation : real;
  violatingConstraint : option (nat * Constraint);
  scanWorld : World;
  scanFlags : list bool
}.

(** The loop over the constraints inside one negotiation step. *)
Fixpoint checkConstraints (first : bool) (i : nat) (cs : list Constraint)
  (p : Path) (s : Scan) : Scan * list Event :=
  match cs with
  | [] => (s, [])
  | c :: rest =>
      let flags1 := if first then setFlag i false (scanFlags s)
                    else scanFlags s in
      let (currentViolation, w1) :=
        willViolate c p (shortestViolation s) (scanWorld s) in
      let s1 :=
        if rlt r0 currentViolation
           && rlt currentViolation (shortestViolation s)
        then mkScan currentViolation (Some (i, c)) w1 flags1
        else mkScan (shortestViolation s) (violatingConstraint s) w1 flags1 in
      let (s2, ev) := checkConstraints first (S i) rest p s1 in
      (s2, CallWillViolate i (shortestViolation s) :: ev)
  end.

(** How the negotiation loop was left. *)
Inductive LoopExit := Returned | Exhausted.

Variable pipe : SteeringPipe.

(** The negotiation loop, [for (unsigned i = 0; i < constraintSteps; i++)]:
    [steps] is [constraintSteps - i]. *)
Fixpoint negotiate (steps i : nat) (goal : Goal real)
  (violating : option (nat * Constraint)) (p : Path) (st : PipeState)
  : Result (LoopExit * PipeState * list Event) :=
  match steps with
  | O => Ok (Exhausted, st, [])
  | S steps' =>
      let (p1, w1) := getPath (actuator pipe) p goal (world st) in
      let maxViolation := getMaxPriority p1 w1 in
      let (s, ev) :=
        checkConstraints (Nat.eqb i 0) 0 (constraints pipe) p1
          (mkScan maxViolation violating w1 (suggestionUsed st)) in
      if rlt (shortestViolation s) maxViolation then
        match violatingConstraint s with
        | None => Crash WildPointer
        | Some (k, c) =>
            let (goal1, w2) := suggest c p1 (scanWorld s) in
            let st1 := mkState w2 (Some p1) (setFlag k true (scanFlags s))
                               (output st) in
            '(e, st2, ev') <-
              negotiate steps' (S i) goal1 (violatingConstraint s) p1 st1 ;;
            Ok (e, st2, CallGetPath goal :: ev ++ CallSuggest k :: ev')
        end
      else
        let (out, w2) :=
          actuatorSteering (actuator pipe) (output st) p1 (scanWorld s) in
        Ok (Returned, mkState w2 (Some p1) (scanFlags s) out,
            CallGetPath goal :: ev ++ [CallActuatorSteering p1])
  end.

(** [SteeringPipe::getSteering(output)].  [uninit] is the content of the
    storage of the local [Goal goal] before its constructor runs. *)
Definition getSteering (uninit : Goal real) (st : PipeState)
  : Result (PipeState * list Event) :=
  '(goal, w1, evT) <-
     runTargeters 0 (targeters pipe) (newGoal uninit) (world st) ;;
  let '(goal1, w2, evD) := runDecomposers 0 (decomposers pipe) goal w1 in
  let '(p, w3, evP) :=
    match path st with
    | Some p => (p, w2, [])
    | None => let (p, w) := createPathObject (actuator pipe) w2 in
              (p, w, [CallCreatePathObject])
    end in
  let st1 := mkState w3 (Some p) (suggestionUsed st) (output st) in
  '(e, st2, evN) <- negotiate (constraintSteps pipe) 0 goal1 None p st1 ;;
  match e with
  | Returned => Ok (st2, evT ++ evD ++ evP ++ evN)
  | Exhausted =>
      match fallback pipe with
      | Some fb =>
          let (out, w4) := behaviourSteering fb (output st2) (world st2) in
          Ok (mkState w4 (path st2) (suggestionUsed st2) out,
              evT ++ evD ++ evP ++ evN ++ [CallFallback])
      | None => Ok (st2, evT ++ evD ++ evP ++ evN)
      end
  end.

(** The number of negotiation steps a run made: each step starts with
    one call of the actuator's [getPath]. *)
Definition isGetPath (e : Event) : bool :=
  match e with CallGetPath _ => true | _ => false end.

Definition isActuatorSteering (e : Event) : bool :=
  match e with CallActuatorSteering _ => true | _ => false end.

Definition isFallback (e : Event) : bool :=
  match e with CallFallback => true | _ => false end.

(** How many of the calls of a run satisfy [f]. *)
Definition calls (f : Event -> bool) (ev : list Event) : nat :=
  length (filter f ev).

Definition iterations (ev : list Event) : nat := calls isGetPath ev.

End Pipe.

Arguments runTargeters {real World Path} i ts goal w.
Arguments runDecomposers {real World Path} i ds goal w.
Arguments isGetPath {real Path} e.
Arguments isActuatorSteering {real Path} e.
Arguments isFallback {real Path} e.
Arguments CallGetGoal {real Path} _.
Arguments CallDecomposeGoal {real Path} _ _.
Arguments CallCreatePathObject {real Path}.
Arguments CallGetPath {real Path} _.
Arguments CallWillViolate {real Path} _ _.
Arguments CallSuggest {real Path} _.
Arguments CallActuatorSteering {real Path} _.
Arguments CallFallback {real Path}.

(** A pipe over the rationals for the scenarios below.  The world of its
    components is a counter of the goals the targeter has handed out; a
    path is the goal it leads to; the character stands 10 away from
    wherever it is sent. *)
Definition origin : Vector3 Q := mkVector3 0 0 0.

Definition idleGoal : Goal Q := mkGoal origin false 0 false origin false 0 false.

Definition seekGoal : Goal Q :=
  mkGoal (mkVector3 10 0 0) true 0 false origin false 0 false.

Definition faceGoal : Goal Q :=
  mkGoal origin false (1 # 2) true origin false 0 false.

Definition dodgeGoal : Goal Q :=
  mkGoal (mkVector3 5 0 3) true 0 false origin false 0 false.

Definition demoMaxPriority (p : Goal Q) (w : nat) : Q := 10.

Definition seekTargeter : Targeter Q nat :=
  mkTargeter (fun w => (seekGoal, S w)).

Definition faceTargeter : Targeter Q nat :=
  mkTargeter (fun w => (faceGoal, S w)).


Definition demoActuator : Actuator Q nat (Goal Q) :=
  mkActuator (fun w => (idleGoal, w))
             (fun _ g w => (g, w))
             (fun _ p w => (mkOutput (position p) 0, w)).

(** A constraint that reports a violation at distance 1 whatever the path. *)
Definition stubbornConstraint : Constraint Q nat (Goal Q) :=
  mkConstraint (fun _ _ w => (1, w)) (fun _ w => (dodgeGoal, w)).

Definition brake : SteeringBehaviour Q nat :=
  mkBehaviour (fun _ w => (mkOutput origin 0, w)).

Definition demoPipe (cs : list (Constraint Q nat (Goal Q))) (steps : nat)
  (fb : option (SteeringBehaviour Q nat)) : SteeringPipe Q nat (Goal Q) :=
  mkPipe demoActuator [seekTargeter; faceTargeter] [] cs steps fb.

Definition demoState : PipeState Q nat (Goal Q) :=
  mkState 0%nat None [true] (mkOutput (mkVector3 1 2 3) 4).

Definition demoSteering (cs : list (Constraint Q nat (Goal Q))) (steps : nat)
  (fb : option (SteeringBehaviour Q nat)) :=
  getSteering Qltb 0 demoMaxPriority (demoPipe cs steps fb) idleGoal demoState.

End Pipeline.

(* ================================================================== *)
(** * [real] as the code is compiled ([precision.h]) *)

Module Single.

(** [typedef float real]: the binary32 format of IEEE 754, with 24 bits
    of mantissa and the infinities at the exponent 128.  A value is a
    zero, an infinity, a NaN or [(-1)^s * m * 2^e]. *)
Definition prec : Z := 24.
Definition emax : Z := 128.

Definition real : Type := spec_float.

(** The operators [+], [-], [*], [/] on [real] and [real_sqrt]
    ([sqrtf]): the exact result rounded to the nearest value of the
    format, ties to the even mantissa.  Each operation of an expression
    is rounded on its own, as on a target that evaluates [float]
    expressions in [float] and does not fuse a product with a sum. *)
Definition radd : real -> real -> real := SFadd prec emax.
Definition rsub : real -> real -> real := SFsub prec emax.
Definition rmul : real -> real -> real := SFmul prec emax.
Definition rdiv : real -> real -> real := SFdiv prec emax.
Definition real_sqrt : real -> real := SFsqrt prec emax.

(** [a < b]; [a > b] is [rlt b a].  Both are false when either side is
    a NaN. *)
Definition rlt (a b : real) : bool := SFltb a b.

(** [a <= b], for the statements below; the code compares with [<] and
    [>] only. *)
Definition rle (a b : real) : bool := SFleb a b.

(** An integer constant converted to [real], as in [(real)1] or in the
    comparison [l > 0]. *)
Definition ofZ (z : Z) : real := binary_normalize prec emax z 0 false.


Definition r0 : real := ofZ 0.
Definition r1 : real := ofZ 1.

(** [REAL_MAX] is [FLT_MAX], the largest finite value. *)
Definition REAL_MAX : real := SFmax_float prec emax.

End Single.

(* ================================================================== *)
(** * The sphere-avoidance constraint ([AvoidSpheresConstraint]) *)

Module AvoidSpheres.
Import Pipeline Single.

(** [class Vector3] ([aimath.h]). *)
Definition vadd (a b : Vector3 real) : Vector3 real :=
  mkVector3 (radd (vx a) (vx b)) (radd (vy a) (vy b)) (radd (vz a) (vz b)).

Definition vsub (a b : Vector3 real) : Vector3 real :=
  mkVector3 (rsub (vx a) (vx b)) (rsub (vy a) (vy b)) (rsub (vz a) (vz b)).

Definition vscale (a : Vector3 real) (value : real) : Vector3 real :=
  mkVector3 (rmul (vx a) value) (rmul (vy a) value) (rmul (vz a) value).

(** [Vector3::operator*(const Vector3&)]: the scalar product,
    [x*vector.x + y*vector.y + z*vector.z]. *)
Definition dot (a b : Vector3 real) : real :=
  radd (radd (rmul (vx a) (vx b)) (rmul (vy a) (vy b))) (rmul (vz a) (vz b)).

Definition squareMagnitude (a : Vector3 real) : real :=
  radd (radd (rmul (vx a) (vx a)) (rmul (vy a) (vy a))) (rmul (vz a) (vz a)).

Definition magnitude (a : Vector3 real) : real :=
  real_sqrt (squareMagnitude a).

(** [Vector3::normalise] and [Vector3::unit]. *)
Definition normalise (a : Vector3 real) : Vector3 real :=
  let l := magnitude a in
  if rlt r0 l then vscale a (rdiv r1 l) else a.

Definition unit (a : Vector3 real) : Vector3 real := normalise a.

(** [struct Sphere] ([primitives.h]). *)
Record Sphere := mkSphere {
  spherePosition : Vector3 real;
  radius : real
}.

(** The fields of [AvoidSpheresConstraint]. *)
Record AvoidSpheresConstraint := mkAvoid {
  suggestion : Goal real;
  obstacles : list Sphere;
  avoidMargin : real
}.

(** The base [Path]: the character it is for (the position is all that
    is read) and the goal. *)
Record BasicPath := mkPath {
  pathCharacter : Vector3 real;
  pathGoal : Goal real
}.

(** [Path::getMaxPriority] *)
Definition basicMaxPriority (p : BasicPath) : real :=
  magnitude (vsub (pathCharacter p) (position (pathGoal p))).

Definition setSuggestion (c : AvoidSpheresConstraint) (pos : Vector3 real)
  : AvoidSpheresConstraint :=
  mkAvoid (mkGoal pos true
                  (orientation (suggestion c)) (orientationSet (suggestion c))
                  (velocity (suggestion c)) (velocitySet (suggestion c))
                  (rotation (suggestion c)) (rotationSet (suggestion c)))
          (obstacles c) (avoidMargin c).

(** [AvoidSpheresConstraint::willViolate(path, maxPriority, obstacle)],
    the check of one obstacle.  [character] is the position of
    [pipe->character]. *)
Definition willViolateSphere (c : AvoidSpheresConstraint)
  (character : Vector3 real) (p : BasicPath) (maxPriority : real)
  (obstacle : Sphere) : real * AvoidSpheresConstraint :=
  if negb (positionSet (pathGoal p)) then (REAL_MAX, c) else
  let direction := vsub (position (pathGoal p)) character in
  if rlt r0 (squareMagnitude direction) then
    let movementNormal := unit direction in
    let characterToObstacle := vsub (spherePosition obstacle) character in
    let distanceSquared := dot characterToObstacle movementNormal in
    let distanceSquared :=
      rsub (squareMagnitude characterToObstacle)
           (rmul distanceSquared distanceSquared) in
    let radius_ := radd (radius obstacle) (avoidMargin c) in
    if rlt distanceSquared (rmul radius_ radius_) then
      let distanceToClosest := dot characterToObstacle movementNormal in
      if rlt r0 distanceToClosest && rlt distanceToClosest maxPriority then
        let closestPoint :=
          vadd character (vscale movementNormal distanceToClosest) in
        (distanceToClosest,
         setSuggestion c
           (vadd (spherePosition obstacle)
                 (vscale (unit (vsub closestPoint (spherePosition obstacle)))
                         (radd (radius obstacle) (avoidMargin c)))))
      else (REAL_MAX, c)
    else (REAL_MAX, c)
  else (REAL_MAX, c).

(** The loop of [AvoidSpheresConstraint::willViolate(path, maxPriority)]:
    each obstacle is checked with the running [priority] as its bound. *)
Fixpoint willViolateLoop (c : AvoidSpheresConstraint)
  (character : Vector3 real) (p : BasicPath) (priority : real)
  (obs : list Sphere) : real * AvoidSpheresConstraint :=
  match obs with
  | [] => (priority, c)
  | o :: rest =>
      let (thisPriority, c1) := willViolateSphere c character p priority o in
      willViolateLoop c1 character p
        (if rlt thisPriority priority then thisPriority else priority) rest
  end.

Definition willViolate (c : AvoidSpheresConstraint)
  (character : Vector3 real) (p : BasicPath) (maxPriority : real)
  : real * AvoidSpheresConstraint :=
  willViolateLoop c character p REAL_MAX (obstacles c).

(** [AvoidSpheresConstraint::suggest] *)
Definition suggest (c : AvoidSpheresConstraint) (p : BasicPath) : Goal real :=
  suggestion c.

(** The running least value of the loop of [willViolate]. *)
Definition nearer (priority thisPriority : real) : real :=
  if rlt thisPriority priority then thisPriority else priority.

(** ** Scenes *)

Definition vectorOfZ (x y z : Z) : Vector3 real :=
  mkVector3 (ofZ x) (ofZ y) (ofZ z).

(** A goal with the position [(x, y, z)] and no other channel. *)
Definition goalAt (x y z : Z) : Goal real :=
  mkGoal (vectorOfZ x y z) true r0 false (vectorOfZ 0 0 0) false r0 false.

Definition sceneCharacter : Vector3 real := vectorOfZ 0 0 0.

(** A constraint that has cached no suggestion yet. *)
Definition avoidWith (margin : real) (o : Sphere) : AvoidSpheresConstraint :=
  mkAvoid (mkGoal (vectorOfZ 0 0 0) false r0 false (vectorOfZ 0 0 0) false
                  r0 false)
          [o] margin.

(** The character at the origin, sent to a point 10 along the x axis; a
    pillar half way, on the line; a rock half way, 7 to the side; the
    margin is 1. *)
Definition scenePath : BasicPath := mkPath sceneCharacter (goalAt 10 0 0).


Definition rock : Sphere := mkSphere (vectorOfZ 5 0 7) r1.

Definition avoid (o : Sphere) : AvoidSpheresConstraint := avoidWith r1 o.





End AvoidSpheres.

(* ================================================================== *)
(** * The rest of [action.cpp]: list helpers, ticks, compound actions *)

Module ActionLists.
Import Actions.

Section Lists.
Context {A : Type} `{ActionClass A}.

(** The loop of [Action::getLast]: [thisAction] trails [nextAction]. *)
Fixpoint getLastLoop (thisAction : A) (nextAction : list A) : A :=
  match nextAction with
  | [] => thisAction
  | n :: rest => getLastLoop n rest
  end.

(** [Action::getLast], called on the action [this] whose [next] chain is
    [next]. *)
Definition getLast (this : A) (next : list A) : A :=
  match next with
  | [] => this
  | _ :: _ => getLastLoop this next
  end.

(** The host loop: [execute] once per tick, [n] ticks. *)
Fixpoint executeTicks (fuel n : nat) (m : ActionManager A)
  : option (ActionManager A) :=
  match n with
  | O => Some m
  | S k =>
      match execute fuel m with
      | Some m' => executeTicks fuel k m'
      | None => None
      end
  end.

(** [n] calls of [act] on one action. *)
Fixpoint actTimes (n : nat) (a : A) : A :=
  match n with
  | O => a
  | S k => actTimes k (act a)
  end.

End Lists.

(** A manager in mid-game: one action active at priority 5, three
    queued in descending order of priority, the second of which can
    interrupt. *)
Definition busyManager : ActionManager DemoAction :=
  mkManager 5 [talkAction; shoutAction; idleAction] [walkAction] [].

(** The same queue, with two actions active and one destroyed before. *)
Definition crowdedManager : ActionManager DemoAction :=
  mkManager 5 [talkAction; shoutAction; idleAction] [walkAction; aimAction]
            [idleAction].

End ActionLists.

Module Compound.
Import Actions.

(** An action is a leaf (any class derived from [Action] that is not a
    compound) or a compound with its priority and its [subActions]
    list. *)
#[warnings="-register-all"]
Inductive Tree (L : Type) :=
| Leaf (l : L)
| Combination (prio : Q) (subActions : list (Tree L))
| Sequence (prio : Q) (subActions : list (Tree L)).

Arguments Leaf {L} _.
Arguments Combination {L} _ _.
Arguments Sequence {L} _ _.

(** The virtual functions of the leaf classes. *)
Record LeafClass (L : Type) := mkLeafClass {
  leafPriority : L -> Q;
  leafCanInterrupt : L -> bool;
  leafCanDoBoth : L -> Tree L -> bool;
  leafIsComplete : L -> bool;
  leafAct : L -> L
}.

Section Trees.
Context {L : Type}.
Variable C : LeafClass L.

Definition treePriority (a : Tree L) : Q :=
  match a with
  | Leaf l => leafPriority C l
  | Combination prio _ => prio
  | Sequence prio _ => prio
  end.

(** [ActionCombination::canInterrupt], [ActionSequence::canInterrupt]. *)
Fixpoint treeCanInterrupt (a : Tree L) : bool :=
  match a with
  | Leaf l => leafCanInterrupt C l
  | Combination _ subs => existsb treeCanInterrupt subs
  | Sequence _ subs =>
      match subs with
      | [] => false
      | first :: _ => treeCanInterrupt first
      end
  end.

(** [ActionCompound::canDoBoth]. *)
Fixpoint treeCanDoBoth (a other : Tree L) : bool :=
  match a with
  | Leaf l => leafCanDoBoth C l other
  | Combination _ subs => forallb (fun s => treeCanDoBoth s other) subs
  | Sequence _ subs => forallb (fun s => treeCanDoBoth s other) subs
  end.

(** [ActionCombination::isComplete], [ActionSequence::isComplete]. *)
Fixpoint treeIsComplete (a : Tree L) : bool :=
  match a with
  | Leaf l => leafIsComplete C l
  | Combination _ subs => forallb treeIsComplete subs
  | Sequence _ subs =>
      match subs with
      | [] => true
      | _ :: _ => false
      end
  end.

(** [ActionCombination::act]: every sub-action that is not complete
    acts.  [ActionSequence::act]: the first sub-action acts and is
    unlinked and deleted if it is complete afterwards. *)
Fixpoint treeAct (a : Tree L) : Tree L :=
  match a with
  | Leaf l => Leaf (leafAct C l)
  | Combination prio subs =>
      Combination prio
        (map (fun s => if treeIsComplete s then s else treeAct s) subs)
  | Sequence prio subs =>
      match subs with
      | [] => Sequence prio []
      | first :: rest =>
          let first' := treeAct first in
          if treeIsComplete first' then Sequence prio rest
          else Sequence prio (first' :: rest)
      end
  end.

#[export] Instance TreeActionClass : ActionClass (Tree L) := {
  priority := treePriority;
  canInterrupt := treeCanInterrupt;
  canDoBoth := treeCanDoBoth;
  isComplete := treeIsComplete;
  act := treeAct
}.

End Trees.

(** The leaves of the scheduler demo, as leaves of compounds. *)
Definition demoLeaves : LeafClass DemoAction :=
  mkLeafClass demoPriority interrupt (fun this _ => both this)
              (fun a => (actCount a <=? 0)%Z)
              (fun a => mkDemo (ident a) (demoPriority a) (interrupt a)
                               (both a) (actCount a - 1)).

Definition oneShot (n : nat) : Tree DemoAction := Leaf (mkDemo n 0 false false 1).

(** A sequence of two one-shot actions, as the demo schedules it, and a
    combination of a one-shot action with one that takes two ticks. *)
Definition demoSequence : Tree DemoAction := Sequence 0 [oneShot 1; oneShot 2].
Definition demoCombination : Tree DemoAction :=
  Combination 0 [oneShot 1; Leaf (mkDemo 2 0 false false 2)].

End Compound.

(* ================================================================== *)
(** * The rest of [steerpipe.cpp]: set-up and the basic components *)

Module PipelineSetup.
Import Pipeline.

Section Setup.
Variable real : Type.
Variables World Path : Type.

(** [SteeringPipe::setActuator]: the actuator is replaced and the path
    object of the old one is deleted. *)
Definition setActuator (a : Actuator real World Path)
  (pipe : SteeringPipe real World Path) (st : PipeState real World Path)
  : SteeringPipe real World Path * PipeState real World Path :=
  (mkPipe a (targeters pipe) (decomposers pipe) (constraints pipe)
          (constraintSteps pipe) (fallback pipe),
   mkState (world st) None (suggestionUsed st) (output st)).

Definition isCreatePathObject (e : Event real Path) : bool :=
  match e with CallCreatePathObject => true | _ => false end.

(** The call of [suggest] on the constraint at position [i]. *)
Definition isSuggestBy (i : nat) (e : Event real Path) : bool :=
  match e with CallSuggest k => Nat.eqb k i | _ => false end.

End Setup.

Arguments isCreatePathObject {real Path} e.
Arguments isSuggestBy {real Path} i e.

End PipelineSetup.

Module BasicPipe.
Import Pipeline AvoidSpheres Single.

(** What the basic components reach through [pipe]: the position of
    [pipe->character], and the one sphere-avoidance constraint with its
    cached suggestion. *)
Record BasicWorld := mkWorld {
  character : Vector3 real;
  avoiding : AvoidSpheresConstraint
}.

(** [SteeringOutput::clear] *)
Definition clearOutput : SteeringOutput real :=
  mkOutput (mkVector3 r0 r0 r0) r0.

(** [Seek::getSteering] ([steering.cpp]): the linear part is written,
    the angular part is left as it is. *)
Definition seekSteering (position_ target : Vector3 real)
  (maxAcceleration : real) (output : SteeringOutput real)
  : SteeringOutput real :=
  let linear_ := vsub target position_ in
  if rlt r0 (squareMagnitude linear_)
  then mkOutput (vscale (normalise linear_) maxAcceleration) (angular output)
  else mkOutput linear_ (angular output).

(** [FixedGoalTargeter] *)
Definition fixedGoalTargeter (goal : Goal real) : Targeter real BasicWorld :=
  mkTargeter (fun w => (goal, w)).

(** [AvoidSpheresConstraint] as a constraint of the pipe. *)
Definition avoidSpheresConstraint : Constraint real BasicWorld BasicPath :=
  mkConstraint
    (fun p maxPriority w =>
       let (v, c) := willViolate (avoiding w) (character w) p maxPriority in
       (v, mkWorld (character w) c))
    (fun p w => (suggest (avoiding w) p, w)).

(** [BasicActuator].  [uninit] is the content of the storage that
    [new Path] returns before the constructor of its goal has run. *)
Definition basicActuator (maxAcceleration : real) (uninit : BasicPath)
  : Actuator real BasicWorld BasicPath :=
  mkActuator
    (fun w => (mkPath (pathCharacter uninit) (newGoal (pathGoal uninit)), w))
    (fun _ goal w => (mkPath (character w) goal, w))
    (fun output p w =>
       (if positionSet (pathGoal p)
        then seekSteering (character w) (position (pathGoal p))
                          maxAcceleration output
        else clearOutput,
        w)).

(** [Path::getMaxPriority] as the pipe calls it. *)
Definition pathMaxPriority (p : BasicPath) (w : BasicWorld) : real :=
  basicMaxPriority p.

(** The pipe of the pipeline demo: one fixed-goal targeter, one
    sphere-avoidance constraint, the basic actuator. *)
Definition basicPipe (goal : Goal real) (maxAcceleration : real)
  (uninit : BasicPath) (steps : nat)
  (fb : option (SteeringBehaviour real BasicWorld))
  : SteeringPipe real BasicWorld BasicPath :=
  mkPipe (basicActuator maxAcceleration uninit) [fixedGoalTargeter goal] []
         [avoidSpheresConstraint] steps fb.

Definition basicSteering (goal : Goal real) (maxAcceleration : real)
  (uninit : BasicPath) (steps : nat)
  (fb : option (SteeringBehaviour real BasicWorld))
  (uninitGoal : Goal real) (st : PipeState real BasicWorld BasicPath) :=
  getSteering rlt r0 pathMaxPriority
              (basicPipe goal maxAcceleration uninit steps fb) uninitGoal st.

(** The scene as a state of the pipe: the character at the origin, the
    constraint avoiding [o], no path object yet. *)
Definition sceneState (o : Sphere) : PipeState real BasicWorld BasicPath :=
  mkState (mkWorld sceneCharacter (avoid o)) None [false]
          (mkOutput (vectorOfZ 1 1 1) r1).

End BasicPipe.

(* ================================================================== *)
(** * Facts about the comparisons *)

Unset Implicit Arguments.

Lemma Qltb_true (a b : Q) : Qltb a b = true <-> (a < b)%Q.
Proof.
  unfold Qltb. rewrite negb_true_iff.
  destruct (Qle_bool b a) eqn:E.
  - apply Qle_bool_iff in E. split; [discriminate | intro; lra].
  - split; [intros _ | reflexivity].
    destruct (Qlt_le_dec a b) as [H | H]; [exact H |].
    apply Qle_bool_iff in H. congruence.
Qed.

Lemma Qltb_false (a b : Q) : Qltb a b = false <-> (b <= a)%Q.
Proof.
  unfold Qltb. rewrite negb_false_iff. apply Qle_bool_iff.
Qed.

Lemma Qgtb_true (a b : Q) : Qgtb a b = true <-> (b < a)%Q.
Proof. unfold Qgtb. apply Qltb_true. Qed.

Lemma Qgtb_false (a b : Q) : Qgtb a b = false <-> (a <= b)%Q.
Proof. unfold Qgtb. apply Qltb_false. Qed.

(* ================================================================== *)
(** * Properties of the action scheduler *)

Module ActionFacts.
Import Actions.

Section Scheduling.
Context {A : Type} `{ActionClass A}.

(** ** The queue: [scheduleAction] *)

Lemma insertAction_split (newAction : A) (q : list A) :
  exists before after,
    q = before ++ after /\
    insertAction newAction q = before ++ newAction :: after /\
    (forall a, In a before -> (priority newAction <= priority a)%Q) /\
    match after with
    | [] => True
    | b :: _ => (priority b < priority newAction)%Q
    end.
Proof.
  induction q as [| next rest IH]; simpl.
  - exists [], []. simpl. repeat split. intros a [].
  - destruct (Qgtb (priority newAction) (priority next)) eqn:E.
    + exists [], (next :: rest). simpl. repeat split.
      * intros a [].
      * now apply Qgtb_true.
    + destruct IH as (before & after & Hq & Hins & Hb & Ha).
      exists (next :: before), after. simpl. repeat split.
      * now rewrite Hq.
      * now rewrite Hins.
      * intros a [<- | Hin]; [now apply Qgtb_false | now apply Hb].
      * exact Ha.
Qed.

Lemma sortedQueue_tail (a : A) (q : list A) :
  sortedQueue (a :: q) -> sortedQueue q.
Proof. simpl. tauto. Qed.

Lemma sortedQueue_all_le (a : A) (q : list A) :
  sortedQueue (a :: q) -> forall b, In b q -> (priority b <= priority a)%Q.
Proof.
  revert a. induction q as [| c rest IH]; intros a Hs b Hin.
  - destruct Hin.
  - destruct Hs as [Hca Hrest]. destruct Hin as [<- | Hin]; [exact Hca |].
    apply Qle_trans with (priority c); [| exact Hca].
    now apply IH.
Qed.

Lemma insertAction_sorted (newAction : A) (q : list A) :
  sortedQueue q -> sortedQueue (insertAction newAction q).
Proof.
  induction q as [| next rest IH]; intro Hs.
  - simpl. tauto.
  - cbn [insertAction].
    destruct (Qgtb (priority newAction) (priority next)) eqn:E.
    + split; [| exact Hs].
      apply Qgtb_true in E. now apply Qlt_le_weak.
    + apply Qgtb_false in E.
      assert (Hrest : sortedQueue (insertAction newAction rest))
        by (apply IH; exact (sortedQueue_tail _ _ Hs)).
      split; [| exact Hrest].
      destruct rest as [| c rest']; cbn [insertAction].
      * exact E.
      * destruct (Qgtb (priority newAction) (priority c)); [exact E |].
        destruct Hs as [Hc _]. exact Hc.
Qed.

Lemma sorted_after_lower (newAction : A) (before after : list A) :
  sortedQueue (before ++ after) ->
  match after with
  | [] => True
  | b :: _ => (priority b < priority newAction)%Q
  end ->
  forall b, In b after -> (priority b < priority newAction)%Q.
Proof.
  intros Hs Hhead b Hin.
  assert (Hafter : sortedQueue after).
  { clear Hhead Hin. induction before as [| x before IH]; [exact Hs |].
    apply IH. exact (sortedQueue_tail _ _ Hs). }
  destruct after as [| c rest]; [destruct Hin |].
  destruct Hin as [<- | Hin]; [exact Hhead |].
  apply Qle_lt_trans with (priority c); [| exact Hhead].
  now apply (sortedQueue_all_le _ _ Hafter).
Qed.

(** ** The inner loop of [addAllToActive] *)

Lemma compatibleWithActive_spins (a next : A) (l : list A) :
  canDoBoth a next = true -> canDoBoth next a = true ->
  forall fuel, compatibleWithActive fuel (a :: l) next = None.
Proof.
  intros H1 H2. induction fuel as [| fuel IH]; simpl; [reflexivity |].
  rewrite H1, H2. simpl. exact IH.
Qed.

Lemma compatibleWithActive_refused (a next : A) (l : list A) :
  canDoBoth a next = false \/ canDoBoth next a = false ->
  forall fuel, compatibleWithActive (S fuel) (a :: l) next = Some false.
Proof.
  intros Hno fuel. simpl.
  destruct Hno as [-> | ->]; simpl; [reflexivity |].
  now rewrite orb_true_r.
Qed.

Lemma compatibleWithActive_ends_on_empty (fuel : nat) (l : list A) (next : A) :
  compatibleWithActive fuel l next = Some true -> l = [].
Proof.
  induction fuel as [| fuel IH]; cbn [compatibleWithActive];
    [discriminate |].
  destruct l as [| a l]; [reflexivity |].
  destruct (negb (canDoBoth a next) || negb (canDoBoth next a));
    [discriminate | exact IH].
Qed.

Lemma compatibleWithActive_empty (next : A) (fuel : nat) :
  compatibleWithActive (S fuel) [] next = Some true.
Proof. reflexivity. Qed.

(** More fuel never changes an answer: a run of the inner loop is over
    after one test or is never over. *)
Lemma compatibleWithActive_one (fuel : nat) (l : list A) (next : A) :
  compatibleWithActive (S fuel) l next = compatibleWithActive 1 l next.
Proof.
  destruct l as [| a l]; [reflexivity |].
  destruct (canDoBoth a next) eqn:E1; [destruct (canDoBoth next a) eqn:E2 |].
  - now rewrite !compatibleWithActive_spins.
  - rewrite !compatibleWithActive_refused; auto.
  - rewrite !compatibleWithActive_refused; auto.
Qed.

Lemma addLoop_no_fuel (q act_ : list A) :
  q <> [] -> addLoop 0 q act_ = None.
Proof. destruct q; [congruence | reflexivity]. Qed.

(** ** When [addAllToActive] returns *)

(** On an empty active set the first queued action is moved and the
    loop is left. *)
Lemma addAllToActive_on_empty_active (m : ActionManager A) (next : A)
  (rest : list A) (fuel : nat) :
  active m = [] ->
  actionQueue m = next :: rest ->
  addAllToActive (S fuel) m
  = Some (mkManager (activePriority m) rest [next] (deleted m)).
Proof.
  intros Ha Hq. unfold addAllToActive. now rewrite Ha, Hq.
Qed.

(** When the head of the active list and every queued action refuse each
    other in one direction at least, nothing moves. *)
Lemma addLoop_all_refused (a : A) (l : list A) (fuel : nat) :
  forall queue,
    (forall q, In q queue ->
               canDoBoth a q = false \/ canDoBoth q a = false) ->
    addLoop (S fuel) queue (a :: l) = Some (queue, a :: l).
Proof.
  induction queue as [| next rest IH]; intro Hall; [reflexivity |].
  cbn [addLoop].
  rewrite compatibleWithActive_refused by (apply Hall; now left).
  rewrite IH; [reflexivity |].
  intros q Hq. apply Hall. now right.
Qed.

(** With nothing queued and nothing active, [execute] changes nothing. *)
Lemma execute_idle (ap : Q) (d : list A) (fuel : nat) :
  execute fuel (mkManager ap [] [] d) = Some (mkManager ap [] [] (d ++ [])).
Proof. reflexivity. Qed.

(** ** The claims about the scheduler *)

(** C1.  The claim is that [execute] and [addAllToActive] return for
    every finite queue and active list.  On the code, as soon as the
    action at the head of the queue and the action at the head of a
    non-empty active list accept each other in both directions, the
    inner loop of [addAllToActive] tests the same pair for ever: no
    amount of fuel makes [addAllToActive] return, nor [execute] when no
    queued action interrupts first. *)
Theorem addAllToActive_spins_on_compatible
  (m : ActionManager A) (a next : A) (l rest : list A) :
  active m = a :: l ->
  actionQueue m = next :: rest ->
  canDoBoth a next = true ->
  canDoBoth next a = true ->
  forall fuel,
    addAllToActive fuel m = None /\
    (findInterrupter (activePriority m) (actionQueue m) = None ->
     execute fuel m = None).
Proof.
  intros Ha Hq H1 H2 fuel.
  assert (Hadd : addAllToActive fuel m = None).
  { unfold addAllToActive. rewrite Ha, Hq. cbn [addLoop].
    now rewrite compatibleWithActive_spins. }
  split; [exact Hadd |].
  intro Hnone. unfold execute, checkInterrupts. rewrite Hnone.
  now rewrite Hadd.
Qed.

Lemma two_queued_actions (ap : Q) (x y : A) (d : list A) :
  let m := mkManager ap [x; y] [] d in
  (findInterrupter ap [x; y] = None ->
   forall fuel,
     addAllToActive (S fuel) (checkInterrupts m)
     = Some (mkManager ap [y] [x] d)) /\
  (canDoBoth x y = true -> canDoBoth y x = true ->
   findInterrupter ap [x; y] <> None ->
   forall fuel, execute fuel m = None).
Proof.
  intro m. subst m. split.
  - intros Hnone fuel. unfold checkInterrupts.
    cbn [activePriority actionQueue]. rewrite Hnone. reflexivity.
  - intros H1 H2 Hsome fuel.
    unfold execute, checkInterrupts, addAllToActive.
    cbn [findInterrupter activePriority actionQueue active] in *.
    destruct (Qltb (priority x) ap); [congruence |].
    destruct (canInterrupt x).
    + cbn [activePriority actionQueue active addLoop].
      now rewrite compatibleWithActive_spins.
    + destruct (Qltb (priority y) ap); [congruence |].
      destruct (canInterrupt y); [| congruence].
      cbn [activePriority actionQueue active addLoop].
      now rewrite compatibleWithActive_spins.
Qed.

(** Two queued actions of which one refuses the other are kept apart by
    the two scheduling phases: one becomes active, the other stays
    queued. *)
Lemma two_refusing_actions_kept_apart (ap : Q) (x y : A) (d : list A) :
  canDoBoth x y = false \/ canDoBoth y x = false ->
  forall fuel, exists m' u v,
    addAllToActive (S fuel) (checkInterrupts (mkManager ap [x; y] [] d))
    = Some m' /\
    active m' = [u] /\ actionQueue m' = [v] /\
    ((u = x /\ v = y) \/ (u = y /\ v = x)).
Proof.
  intros Hno fuel.
  assert (Hno' : canDoBoth y x = false \/ canDoBoth x y = false) by tauto.
  unfold checkInterrupts, addAllToActive.
  cbn [findInterrupter activePriority actionQueue active].
  destruct (Qltb (priority x) ap);
    [| destruct (canInterrupt x);
       [| destruct (Qltb (priority y) ap); [| destruct (canInterrupt y)]]];
    cbn [activePriority actionQueue active addLoop];
    rewrite ?compatibleWithActive_empty;
    rewrite ?compatibleWithActive_refused by assumption;
    cbn [addLoop];
    eexists; eexists; eexists;
    (split; [reflexivity |]); cbn [active actionQueue]; auto.
Qed.

(** C2.  The claim is that two queued actions that accept each other in
    both directions are both made active by one [execute] on a manager
    with an empty active set.  On the code they never are.  With [x] the
    first and [y] the second in the queue:
    - if no queued action interrupts, [addAllToActive] moves [x] into the
      empty active set and leaves its loop at once, [y] not examined:
      [execute] returns with [y] still queued;
    - if one of the two interrupts, it becomes the active list and the
      inner loop of [addAllToActive] tests the other against it for
      ever: [execute] does not return. *)
Theorem execute_two_compatible_not_both (a b : A) :
  canDoBoth a b = true ->
  canDoBoth b a = true ->
  let m := scheduleAction b (scheduleAction a newManager) in
  exists x y,
    actionQueue m = [x; y] /\
    ((x = a /\ y = b) \/ (x = b /\ y = a)) /\
    (findInterrupter 0 [x; y] = None ->
     forall fuel, exists m',
       execute (S fuel) m = Some m' /\
       actionQueue m' = [y] /\
       (active m' = [act x] \/ active m' = [])) /\
    (findInterrupter 0 [x; y] <> None ->
     forall fuel, execute fuel m = None).
Proof.
  intros H1 H2 m. subst m.
  unfold scheduleAction, newManager.
  cbn [insertAction activePriority actionQueue active deleted].
  assert (Hgen : forall x y,
             canDoBoth x y = true -> canDoBoth y x = true ->
             (findInterrupter 0 [x; y] = None ->
              forall fuel, exists m',
                execute (S fuel) (mkManager 0 [x; y] [] []) = Some m' /\
                actionQueue m' = [y] /\
                (active m' = [act x] \/ active m' = [])) /\
             (findInterrupter 0 [x; y] <> None ->
              forall fuel, execute fuel (mkManager 0 [x; y] [] []) = None)).
  { intros x y Hxy Hyx.
    destruct (two_queued_actions 0 x y []) as [Hnone Hsome]. split.
    - intros Hn fuel. unfold execute. rewrite (Hnone Hn fuel).
      eexists. split; [reflexivity |].
      unfold runActive. cbn [active runLoop].
      destruct (isComplete (act x)); cbn; auto.
    - intros Hs fuel. now apply Hsome. }
  destruct (Qgtb (priority b) (priority a)).
  - exists b, a. split; [reflexivity |]. split; [tauto |]. now apply Hgen.
  - exists a, b. split; [reflexivity |]. split; [tauto |]. now apply Hgen.
Qed.

(** C3.  The claim is that [activePriority] is the highest priority of
    the active set whenever that set is not empty, as the comment on
    the field in [action.h] says.  On the code only [checkInterrupts]
    writes the field: an action that [addAllToActive] moves into an
    empty active set leaves it at its old value.  Scheduling one action
    that does not interrupt into a new manager and calling [execute]
    gives an active set holding that action and [activePriority] still
    0, which is not its priority. *)
Theorem activePriority_stale_after_addAllToActive (a : A) :
  canInterrupt a = false ->
  isComplete (act a) = false ->
  ~ (priority (act a) == 0)%Q ->
  forall fuel, exists m',
    execute (S fuel) (scheduleAction a newManager) = Some m' /\
    active m' = [act a] /\
    actionQueue m' = [] /\
    activePriority m' = 0%Q /\
    ~ isHighestPriority (activePriority m') (active m').
Proof.
  intros Hint Hrun Hprio fuel.
  unfold execute, checkInterrupts, addAllToActive, scheduleAction, newManager.
  cbn [insertAction findInterrupter activePriority actionQueue active deleted].
  rewrite Hint.
  destruct (Qltb (priority a) 0);
    cbn [activePriority actionQueue active deleted addLoop
         compatibleWithActive];
    unfold runActive; cbn [active runLoop]; rewrite Hrun;
    (eexists; split; [reflexivity |]);
    cbn [active actionQueue activePriority];
    repeat split; try reflexivity;
    intros [[x [[<- | []] Hx]] _]; now apply Hprio.
Qed.

(** C4.  Priority preemption.  Action [a] of priority 5 is the active
    set, [activePriority] is 5, and [b] of priority 10 is scheduled.
    If [b] can interrupt, [checkInterrupts] destroys [a], makes [b] the
    only active action and sets [activePriority] to the priority of
    [b]; [addAllToActive] changes nothing and [execute] ends by running
    that active set (so [b], after one [act], stays active unless it
    reports itself complete).  If [b] cannot interrupt and the two are
    not compatible in both directions, both scheduling phases leave the
    manager as it is: [a] active, [b] queued; [execute] ends by running
    [a]. *)
Theorem priority_preemption (a b : A) (d : list A) :
  (priority a == 5)%Q ->
  (priority b == 10)%Q ->
  let m := scheduleAction b (mkManager 5 [] [a] d) in
  actionQueue m = [b] /\ active m = [a] /\
  (canInterrupt b = true ->
   let m1 := mkManager (priority b) [] [b] (d ++ [a]) in
   checkInterrupts m = m1 /\
   (activePriority m1 == 10)%Q /\
   forall fuel,
     addAllToActive fuel m1 = Some m1 /\
     execute fuel m = Some (runActive m1) /\
     (isComplete (act b) = false ->
      execute fuel m = Some (mkManager (priority b) [] [act b] (d ++ [a])))) /\
  (canInterrupt b = false ->
   canDoBoth a b = false \/ canDoBoth b a = false ->
   checkInterrupts m = m /\
   forall fuel,
     addAllToActive (S fuel) m = Some m /\
     execute (S fuel) m = Some (runActive m) /\
     (isComplete (act a) = false ->
      execute (S fuel) m = Some (mkManager 5 [b] [act a] d))).
Proof.
  intros Ha Hb m. subst m.
  unfold scheduleAction.
  cbn [insertAction activePriority actionQueue active deleted].
  assert (Hge : Qltb (priority b) 5 = false) by (apply Qltb_false; lra).
  split; [reflexivity |]. split; [reflexivity |]. split.
  - intros Hint. cbv zeta.
    assert (Hc : checkInterrupts (mkManager 5 [b] [a] d)
                 = mkManager (priority b) [] [b] (d ++ [a])).
    { unfold checkInterrupts.
      cbn [findInterrupter activePriority actionQueue active deleted].
      now rewrite Hge, Hint. }
    split; [exact Hc |]. split; [exact Hb |].
    intro fuel.
    assert (Hadd : addAllToActive fuel (mkManager (priority b) [] [b] (d ++ [a]))
                   = Some (mkManager (priority b) [] [b] (d ++ [a])))
      by reflexivity.
    split; [exact Hadd |].
    assert (Hex : execute fuel (mkManager 5 [b] [a] d)
                  = Some (runActive (mkManager (priority b) [] [b] (d ++ [a])))).
    { unfold execute. now rewrite Hc, Hadd. }
    split; [exact Hex |].
    intro Hrun. rewrite Hex. unfold runActive. cbn [active runLoop].
    rewrite Hrun. cbn [activePriority actionQueue deleted].
    now rewrite app_nil_r.
  - intros Hint Hno.
    assert (Hc : checkInterrupts (mkManager 5 [b] [a] d)
                 = mkManager 5 [b] [a] d).
    { unfold checkInterrupts.
      cbn [findInterrupter activePriority actionQueue active deleted].
      now rewrite Hge, Hint. }
    split; [exact Hc |].
    intro fuel.
    assert (Hadd : addAllToActive (S fuel) (mkManager 5 [b] [a] d)
                   = Some (mkManager 5 [b] [a] d)).
    { unfold addAllToActive. cbn [actionQueue active addLoop].
      now rewrite compatibleWithActive_refused. }
    split; [exact Hadd |].
    assert (Hex : execute (S fuel) (mkManager 5 [b] [a] d)
                  = Some (runActive (mkManager 5 [b] [a] d))).
    { unfold execute. now rewrite Hc, Hadd. }
    split; [exact Hex |].
    intro Hrun. rewrite Hex. unfold runActive. cbn [active runLoop].
    rewrite Hrun. cbn [activePriority actionQueue deleted].
    now rewrite app_nil_r.
Qed.

(** C7.  [scheduleAction] links the new action after every queued
    action of higher or equal priority and before the first of strictly
    lower priority; it keeps a queue that is in descending order of
    priority in descending order, with every action behind the new one
    of strictly lower priority; it touches nothing but the queue.
    Scheduling actions of priorities 5, 10 and 3, in that order, into a
    new manager gives the queue 10, 5, 3. *)
Theorem scheduleAction_sorted_insert :
  (forall (newAction : A) (m : ActionManager A),
      (exists before after,
          actionQueue m = before ++ after /\
          actionQueue (scheduleAction newAction m)
          = before ++ newAction :: after /\
          (forall x, In x before -> (priority newAction <= priority x)%Q) /\
          match after with
          | [] => True
          | y :: _ => (priority y < priority newAction)%Q
          end /\
          (sortedQueue (actionQueue m) ->
           forall y, In y after -> (priority y < priority newAction)%Q)) /\
      (sortedQueue (actionQueue m) ->
       sortedQueue (actionQueue (scheduleAction newAction m))) /\
      active (scheduleAction newAction m) = active m /\
      activePriority (scheduleAction newAction m) = activePriority m) /\
  (forall a5 a10 a3 : A,
      (priority a5 == 5)%Q -> (priority a10 == 10)%Q -> (priority a3 == 3)%Q ->
      actionQueue
        (scheduleAction a3 (scheduleAction a10 (scheduleAction a5 newManager)))
      = [a10; a5; a3]).
Proof.
  split.
  - intros newAction m. split; [| split; [| split; reflexivity]].
    + destruct (insertAction_split newAction (actionQueue m))
        as (before & after & Hq & Hins & Hb & Ha).
      exists before, after. repeat split; try assumption.
      intro Hs. apply (sorted_after_lower newAction before after).
      * now rewrite <- Hq.
      * exact Ha.
    + apply insertAction_sorted.
  - intros a5 a10 a3 H5 H10 H3.
    unfold scheduleAction, newManager.
    cbn [insertAction activePriority actionQueue active deleted].
    assert (E1 : Qgtb (priority a10) (priority a5) = true)
      by (apply Qgtb_true; lra).
    assert (E2 : Qgtb (priority a3) (priority a10) = false)
      by (apply Qgtb_false; lra).
    assert (E3 : Qgtb (priority a3) (priority a5) = false)
      by (apply Qgtb_false; lra).
    rewrite E1. cbn [insertAction]. now rewrite E2, E3.
Qed.

End Scheduling.

(** ** The scheduler on the demo actions *)

Lemma addAllToActive_spins_witness :
  addAllToActive 1000 (mkManager 5 [talkAction] [walkAction] []) = None /\
  execute 1000 (mkManager 5 [talkAction] [walkAction] []) = None.
Proof.
  destruct (@addAllToActive_spins_on_compatible DemoAction DemoActionClass
              (mkManager 5 [talkAction] [walkAction] [])
              walkAction talkAction [] []
              eq_refl eq_refl eq_refl eq_refl 1000%nat) as [Hadd Hexec].
  split; [exact Hadd | apply Hexec; reflexivity].
Defined.

Lemma execute_two_compatible_witness :
  (exists m',
      execute 1 (scheduleAction talkAction (scheduleAction walkAction newManager))
      = Some m' /\
      actionQueue m' = [walkAction] /\
      active m' = [act talkAction]) /\
  execute 1000 (scheduleAction waveAction (scheduleAction walkAction newManager))
  = None.
Proof.
  split.
  - destruct (@execute_two_compatible_not_both DemoAction DemoActionClass
                walkAction talkAction eq_refl eq_refl)
      as (x & y & Hq & _ & Hnone & _).
    injection Hq as <- <-.
    destruct (Hnone eq_refl 0%nat) as (m' & Hrun & Hqueue & Hactive).
    exists m'. split; [exact Hrun |]. split; [exact Hqueue |].
    injection Hrun as <-. reflexivity.
  - destruct (@execute_two_compatible_not_both DemoAction DemoActionClass
                walkAction waveAction eq_refl eq_refl)
      as (x & y & Hq & _ & _ & Hsome).
    injection Hq as <- <-.
    apply Hsome. discriminate.
Defined.

Lemma activePriority_stale_witness :
  exists m',
    execute 1 (scheduleAction walkAction newManager) = Some m' /\
    active m' = [act walkAction] /\
    actionQueue m' = [] /\
    activePriority m' = 0%Q /\
    ~ isHighestPriority (activePriority m') (active m').
Proof.
  apply (@activePriority_stale_after_addAllToActive DemoAction DemoActionClass walkAction).
  - reflexivity.
  - reflexivity.
  - intro E. discriminate E.
Defined.

Lemma priority_preemption_witness :
  (checkInterrupts (scheduleAction shoutAction (mkManager 5 [] [walkAction] []))
   = mkManager 10 [] [shoutAction] [walkAction] /\
   execute 1 (scheduleAction shoutAction (mkManager 5 [] [walkAction] []))
   = Some (mkManager 10 [] [act shoutAction] [walkAction])) /\
  (checkInterrupts (scheduleAction aimAction (mkManager 5 [] [walkAction] []))
   = scheduleAction aimAction (mkManager 5 [] [walkAction] []) /\
   execute 1 (scheduleAction aimAction (mkManager 5 [] [walkAction] []))
   = Some (mkManager 5 [aimAction] [act walkAction] [])).
Proof.
  split.
  - destruct (@priority_preemption DemoAction DemoActionClass walkAction shoutAction []
                (Qeq_refl 5) (Qeq_refl 10)) as (_ & _ & Hyes & _).
    destruct (Hyes eq_refl) as (Hc & _ & Hrun).
    split; [exact Hc |].
    exact (proj2 (proj2 (Hrun 1%nat)) eq_refl).
  - destruct (@priority_preemption DemoAction DemoActionClass walkAction aimAction []
                (Qeq_refl 5) (Qeq_refl 10)) as (_ & _ & _ & Hno).
    destruct (Hno eq_refl (or_intror eq_refl)) as (Hc & Hrun).
    split; [exact Hc |].
    exact (proj2 (proj2 (Hrun 0%nat)) eq_refl).
Defined.

Lemma scheduleAction_sorted_insert_witness :
  actionQueue
    (scheduleAction idleAction
       (scheduleAction talkAction (scheduleAction walkAction newManager)))
  = [talkAction; walkAction; idleAction] /\
  sortedQueue
    (actionQueue
       (scheduleAction idleAction (mkManager 0 [talkAction; walkAction] [] []))).
Proof.
  destruct (@scheduleAction_sorted_insert DemoAction _) as [Hgen Hscen].
  split.
  - apply Hscen; reflexivity.
  - apply (proj1 (proj2 (Hgen idleAction (mkManager 0 [talkAction; walkAction] [] [])))).
    simpl. repeat split. discriminate.
Defined.

End ActionFacts.

(* ================================================================== *)
(** * Properties of the steering pipeline *)

Module PipelineFacts.
Import Pipeline.

Local Open Scope nat_scope.

Section GoalFacts.
Context {real : Type}.

Lemma canMergeGoals_spec (a b : Goal real) :
  canMergeGoals a b = true <-> ~ sharedChannel a b.
Proof.
  unfold canMergeGoals, sharedChannel.
  destruct (positionSet a), (positionSet b), (orientationSet a),
    (orientationSet b), (velocitySet a), (velocitySet b),
    (rotationSet a), (rotationSet b); simpl;
    (split; [intros E; try discriminate E; intuition discriminate
            | intros N; try reflexivity; exfalso; apply N; tauto]).
Qed.

(** C6.  Goal merge is a union of disjoint channels.  When no channel
    is set in both goals, [canMergeGoals] answers true and [updateGoal]
    returns a goal whose set channels are those set in either goal, each
    with the value of the goal that set it.  When some channel is set in
    both, [canMergeGoals] answers false, and the targeter loop of the
    pipe goes on to the next targeter with the goal it had. *)
Theorem goal_merge_disjoint_union (a b : Goal real) :
  (~ sharedChannel a b ->
   canMergeGoals a b = true /\
   exists g,
     updateGoal a b = Ok g /\
     positionSet g = positionSet a || positionSet b /\
     orientationSet g = orientationSet a || orientationSet b /\
     velocitySet g = velocitySet a || velocitySet b /\
     rotationSet g = rotationSet a || rotationSet b /\
     (positionSet a = true -> position g = position a) /\
     (positionSet b = true -> position g = position b) /\
     (orientationSet a = true -> orientation g = orientation a) /\
     (orientationSet b = true -> orientation g = orientation b) /\
     (velocitySet a = true -> velocity g = velocity a) /\
     (velocitySet b = true -> velocity g = velocity b) /\
     (rotationSet a = true -> rotation g = rotation a) /\
     (rotationSet b = true -> rotation g = rotation b)) /\
  (sharedChannel a b ->
   canMergeGoals a b = false /\
   forall (World Path : Type) (t : Targeter real World)
          (rest : list (Targeter real World)) (i : nat) (w : World),
     fst (getGoal t w) = b ->
     runTargeters (Path := Path) i (t :: rest) a w
     = ('(g, w2, ev) <- runTargeters (S i) rest a (snd (getGoal t w)) ;;
        Ok (g, w2, CallGetGoal i :: ev))).
Proof.
  split.
  - intro Hd. apply canMergeGoals_spec in Hd as Hc.
    split; [exact Hc |].
    exists (copyChannels a b). unfold updateGoal. rewrite Hc.
    split; [reflexivity |].
    unfold sharedChannel in Hd. unfold copyChannels. cbn.
    destruct (positionSet a), (positionSet b), (orientationSet a),
      (orientationSet b), (velocitySet a), (velocitySet b),
      (rotationSet a), (rotationSet b);
      try (exfalso; apply Hd; tauto);
      repeat split; intros; try reflexivity; try discriminate.
  - intro Hs.
    assert (Hc : canMergeGoals a b = false).
    { destruct (canMergeGoals a b) eqn:E; [| reflexivity].
      apply canMergeGoals_spec in E. contradiction. }
    split; [exact Hc |].
    intros World Path t rest i w Hb. cbn [runTargeters].
    destruct (getGoal t w) as [tr w1]. cbn [fst snd] in *. subst tr.
    rewrite Hc. reflexivity.
Qed.

End GoalFacts.

Section PipeFacts.
Variable real : Type.
Variable rlt : real -> real -> bool.
Variable r0 : real.
Variables World Path : Type.
Variable getMaxPriority : Path -> World -> real.

Local Notation "'Ev'" := (Event real Path).
Local Notation "'checkAll'" := (checkConstraints rlt r0).

(** ** Counting calls *)

Lemma calls_app (f : Ev -> bool) (a b : list Ev) :
  calls f (a ++ b) = calls f a + calls f b.
Proof. unfold calls. now rewrite filter_app, length_app. Qed.

Lemma calls_cons (f : Ev -> bool) (e : Ev) (ev : list Ev) :
  calls f (e :: ev) = (if f e then 1 else 0) + calls f ev.
Proof. unfold calls. simpl. now destruct (f e). Qed.

Lemma calls_nil (f : Ev -> bool) : calls f [] = 0.
Proof. reflexivity. Qed.

(** ** The phases before the negotiation loop *)

Lemma runTargeters_returns (ts : list (Targeter real World)) :
  forall i goal w, exists g w' (ev : list Ev),
    runTargeters i ts goal w = Ok (g, w', ev) /\
    forall f, (forall k, f (CallGetGoal k) = false) -> calls f ev = 0.
Proof.
  induction ts as [| t rest IH]; intros i goal w; cbn [runTargeters].
  - exists goal, w, []. split; [reflexivity | intros; apply calls_nil].
  - destruct (getGoal t w) as [tr w1].
    assert (Hmerge : exists goal1,
               (if canMergeGoals goal tr then updateGoal goal tr else Ok goal)
               = Ok goal1).
    { unfold updateGoal. destruct (canMergeGoals goal tr); eauto. }
    destruct Hmerge as [goal1 ->]. cbn [bind].
    destruct (IH (S i) goal1 w1) as (g & w' & ev & -> & Hev).
    cbn [bind]. exists g, w', (CallGetGoal i :: ev).
    split; [reflexivity |].
    intros f Hf. rewrite calls_cons, Hf. now rewrite (Hev f Hf).
Qed.

Lemma runDecomposers_calls (ds : list (Decomposer real World)) :
  forall i goal w (f : Ev -> bool),
    (forall k g, f (CallDecomposeGoal k g) = false) ->
    calls f (snd (runDecomposers i ds goal w)) = 0.
Proof.
  induction ds as [| d rest IH]; intros i goal w f Hf; cbn [runDecomposers].
  - reflexivity.
  - destruct (decomposeGoal d goal w) as [goal1 w1].
    specialize (IH (S i) goal1 w1 f Hf).
    destruct (runDecomposers (S i) rest goal1 w1) as [[g w2] ev].
    cbn [snd] in *. now rewrite calls_cons, Hf, IH.
Qed.

(** ** The loop over the constraints *)

Lemma checkConstraints_calls (cs : list (Constraint real World Path)) :
  forall first i p s (f : Ev -> bool),
    (forall k r, f (CallWillViolate k r) = false) ->
    calls f (snd (checkAll first i cs p s)) = 0.
Proof.
  induction cs as [| c rest IH]; intros first i p s f Hf;
    cbn [checkConstraints].
  - reflexivity.
  - destruct (willViolate c p (shortestViolation s) (scanWorld s))
      as [cur w1].
    match goal with
    | |- context [checkConstraints rlt r0 first (S i) rest p ?s1] =>
        specialize (IH first (S i) p s1 f Hf);
        destruct (checkConstraints rlt r0 first (S i) rest p s1) as [s2 ev]
    end.
    cbn [snd] in *. now rewrite calls_cons, Hf, IH.
Qed.

Lemma checkConstraints_pointer_kept (cs : list (Constraint real World Path)) :
  forall first i p s,
    violatingConstraint s <> None ->
    violatingConstraint (fst (checkAll first i cs p s)) <> None.
Proof.
  induction cs as [| c rest IH]; intros first i p s Hs;
    cbn [checkConstraints].
  - exact Hs.
  - destruct (willViolate c p (shortestViolation s) (scanWorld s))
      as [cur w1].
    match goal with
    | |- context [checkConstraints rlt r0 first (S i) rest p ?s1] =>
        assert (H1 : violatingConstraint s1 <> None)
          by (destruct (rlt r0 cur && rlt cur (shortestViolation s));
              cbn [violatingConstraint]; [discriminate | exact Hs]);
        specialize (IH first (S i) p s1 H1);
        destruct (checkConstraints rlt r0 first (S i) rest p s1) as [s2 ev]
    end.
    exact IH.
Qed.

(** Either no constraint shortened the violation, or the pointer to
    the violating constraint has been assigned. *)
Lemma checkConstraints_pointer_set (cs : list (Constraint real World Path)) :
  forall first i p s,
    shortestViolation (fst (checkAll first i cs p s)) = shortestViolation s \/
    violatingConstraint (fst (checkAll first i cs p s)) <> None.
Proof.
  induction cs as [| c rest IH]; intros first i p s;
    cbn [checkConstraints].
  - now left.
  - destruct (willViolate c p (shortestViolation s) (scanWorld s))
      as [cur w1].
    destruct (rlt r0 cur && rlt cur (shortestViolation s)).
    + right.
      match goal with
      | |- context [checkConstraints rlt r0 first (S i) rest p ?s1] =>
          pose proof (checkConstraints_pointer_kept rest first (S i) p s1) as K;
          destruct (checkConstraints rlt r0 first (S i) rest p s1) as [s2 ev]
      end.
      apply K. discriminate.
    + match goal with
      | |- context [checkConstraints rlt r0 first (S i) rest p ?s1] =>
          specialize (IH first (S i) p s1);
          destruct (checkConstraints rlt r0 first (S i) rest p s1) as [s2 ev]
      end.
      exact IH.
Qed.

(** With a transitive [<], a violation found below [maxViolation]
    stays found through the rest of the loop. *)
Lemma checkConstraints_found_kept
  (rlt_trans : forall a b c, rlt a b = true -> rlt b c = true -> rlt a c = true)
  (cs : list (Constraint real World Path)) :
  forall first i p s maxViolation,
    rlt (shortestViolation s) maxViolation = true ->
    violatingConstraint s <> None ->
    rlt (shortestViolation (fst (checkAll first i cs p s))) maxViolation = true /\
    violatingConstraint (fst (checkAll first i cs p s)) <> None.
Proof.
  induction cs as [| c rest IH]; intros first i p s maxViolation Hlt Hptr;
    cbn [checkConstraints].
  - now split.
  - destruct (willViolate c p (shortestViolation s) (scanWorld s))
      as [cur w1].
    destruct (rlt r0 cur && rlt cur (shortestViolation s)) eqn:U.
    + apply andb_true_iff in U as [_ U].
      match goal with
      | |- context [checkConstraints rlt r0 first (S i) rest p ?s1] =>
          specialize (IH first (S i) p s1 maxViolation);
          destruct (checkConstraints rlt r0 first (S i) rest p s1) as [s2 ev]
      end.
      apply IH; cbn; [eauto | discriminate].
    + match goal with
      | |- context [checkConstraints rlt r0 first (S i) rest p ?s1] =>
          specialize (IH first (S i) p s1 maxViolation);
          destruct (checkConstraints rlt r0 first (S i) rest p s1) as [s2 ev]
      end.
      apply IH; cbn; assumption.
Qed.

(** A constraint that always reports a positive violation below
    [maxViolation] makes the loop end with a violation found. *)
Lemma checkConstraints_found
  (rlt_trans : forall a b c, rlt a b = true -> rlt b c = true -> rlt a c = true)
  (cs : list (Constraint real World Path)) :
  forall first i p s maxViolation c,
    In c cs ->
    (forall mp w, rlt r0 (fst (willViolate c p mp w)) = true /\
                  rlt (fst (willViolate c p mp w)) maxViolation = true) ->
    shortestViolation s = maxViolation \/
    (rlt (shortestViolation s) maxViolation = true /\
     violatingConstraint s <> None) ->
    rlt (shortestViolation (fst (checkAll first i cs p s))) maxViolation = true /\
    violatingConstraint (fst (checkAll first i cs p s)) <> None.
Proof.
  induction cs as [| c0 rest IH];
    intros first i p s maxViolation c Hin Hc Hinv; [destruct Hin |].
  cbn [checkConstraints].
  destruct (willViolate c0 p (shortestViolation s) (scanWorld s))
    as [cur w1] eqn:Ecur.
  assert (Hstep :
            rlt r0 cur && rlt cur (shortestViolation s) = true ->
            rlt cur maxViolation = true).
  { intro U. apply andb_true_iff in U as [_ U].
    destruct Hinv as [<- | [Hlt _]]; [exact U | eauto]. }
  destruct Hin as [-> | Hin].
  - destruct (Hc (shortestViolation s) (scanWorld s)) as [Hpos Hbelow].
    rewrite Ecur in Hpos, Hbelow. cbn [fst] in Hpos, Hbelow.
    destruct (rlt r0 cur && rlt cur (shortestViolation s)) eqn:U.
    + match goal with
      | |- context [checkConstraints rlt r0 first (S i) rest p ?s1] =>
          pose proof (checkConstraints_found_kept rlt_trans rest
                        first (S i) p s1 maxViolation) as K;
          destruct (checkConstraints rlt r0 first (S i) rest p s1) as [s2 ev]
      end.
      apply K; cbn; [exact Hbelow | discriminate].
    + rewrite Hpos in U. cbn in U.
      destruct Hinv as [E | [Hlt Hptr]]; [congruence |].
      match goal with
      | |- context [checkConstraints rlt r0 first (S i) rest p ?s1] =>
          pose proof (checkConstraints_found_kept rlt_trans rest
                        first (S i) p s1 maxViolation) as K;
          destruct (checkConstraints rlt r0 first (S i) rest p s1) as [s2 ev]
      end.
      apply K; cbn; assumption.
  - destruct (rlt r0 cur && rlt cur (shortestViolation s)) eqn:U.
    + match goal with
      | |- context [checkConstraints rlt r0 first (S i) rest p ?s1] =>
          specialize (IH first (S i) p s1 maxViolation c Hin Hc);
          destruct (checkConstraints rlt r0 first (S i) rest p s1) as [s2 ev]
      end.
      apply IH. right. cbn. split; [now apply Hstep | discriminate].
    + match goal with
      | |- context [checkConstraints rlt r0 first (S i) rest p ?s1] =>
          specialize (IH first (S i) p s1 maxViolation c Hin Hc);
          destruct (checkConstraints rlt r0 first (S i) rest p s1) as [s2 ev]
      end.
      apply IH. exact Hinv.
Qed.

(** ** The negotiation loop *)

Variable pipe : SteeringPipe real World Path.
Local Notation "'nego'" := (negotiate rlt r0 getMaxPriority pipe).
Local Notation "'steer'" := (getSteering rlt r0 getMaxPriority pipe).

Lemma negotiate_exit :
  forall steps i goal viol p st e st2 ev,
    nego steps i goal viol p st = Ok (e, st2, ev) ->
    calls isFallback ev = 0 /\
    match e with
    | Exhausted =>
        output st2 = output st /\ iterations ev = steps /\
        calls isActuatorSteering ev = 0
    | Returned =>
        1 <= iterations ev /\ iterations ev <= steps /\
        calls isActuatorSteering ev = 1
    end.
Proof.
  induction steps as [| steps IH]; intros i goal viol p st e st2 ev Hrun;
    cbn [negotiate] in Hrun.
  - inversion Hrun; subst. cbn. auto.
  - destruct (getPath (actuator pipe) p goal (world st)) as [p1 w1].
    match type of Hrun with
    | context [checkConstraints rlt r0 ?f 0 ?cs p1 ?s0] =>
        pose proof (checkConstraints_calls cs f 0 p1 s0) as Hcalls;
        destruct (checkConstraints rlt r0 f 0 cs p1 s0) as [s evc]
    end.
    cbn [snd] in Hcalls.
    assert (H1 : calls isFallback evc = 0) by (apply Hcalls; reflexivity).
    assert (H2 : calls isGetPath evc = 0) by (apply Hcalls; reflexivity).
    assert (H3 : calls isActuatorSteering evc = 0)
      by (apply Hcalls; reflexivity).
    destruct (rlt (shortestViolation s) (getMaxPriority p1 w1)).
    + destruct (violatingConstraint s) as [[k c] |]; [| discriminate].
      destruct (suggest c p1 (scanWorld s)) as [goal1 w2].
      match type of Hrun with
      | context [negotiate rlt r0 getMaxPriority pipe steps ?a ?b ?c ?d ?e] =>
          destruct (negotiate rlt r0 getMaxPriority pipe steps a b c d e)
            as [[[e' st2'] ev'] | f] eqn:En
      end; cbn [bind] in Hrun; [| discriminate].
      inversion Hrun; subst. apply IH in En. destruct En as [Hf He].
      unfold iterations in *.
      rewrite !calls_cons, !calls_app, !calls_cons, H1, H2, H3, Hf.
      cbn [isFallback isGetPath isActuatorSteering].
      split; [reflexivity |].
      destruct e; cbn [output] in He; intuition lia.
    + destruct (actuatorSteering (actuator pipe) (output st) p1 (scanWorld s))
        as [out w2].
      inversion Hrun; subst. unfold iterations.
      rewrite !calls_cons, !calls_app, !calls_cons, H1, H2, H3, !calls_nil.
      cbn [isFallback isGetPath isActuatorSteering].
      repeat split; lia.
Qed.

(** With an irreflexive [<] the loop always comes to an end, and never
    through the unassigned pointer. *)
Lemma negotiate_returns
  (rlt_irrefl : forall a, rlt a a = false) :
  forall steps i goal viol p st, exists e st2 ev,
    nego steps i goal viol p st = Ok (e, st2, ev).
Proof.
  induction steps as [| steps IH]; intros i goal viol p st;
    cbn [negotiate].
  - eauto.
  - destruct (getPath (actuator pipe) p goal (world st)) as [p1 w1].
    match goal with
    | |- context [checkConstraints rlt r0 ?f 0 ?cs p1 ?s0] =>
        pose proof (checkConstraints_pointer_set cs f 0 p1 s0) as Hptr;
        destruct (checkConstraints rlt r0 f 0 cs p1 s0) as [s evc]
    end.
    cbn [fst shortestViolation] in Hptr.
    destruct (rlt (shortestViolation s) (getMaxPriority p1 w1)) eqn:R.
    + destruct Hptr as [E | Hptr];
        [rewrite E, rlt_irrefl in R; discriminate |].
      destruct (violatingConstraint s) as [[k c] |] eqn:V; [| congruence].
      destruct (suggest c p1 (scanWorld s)) as [goal1 w2].
      match goal with
      | |- context [negotiate rlt r0 getMaxPriority pipe steps ?a ?b ?c ?d ?e] =>
          destruct (IH a b c d e) as (e' & st2 & ev & ->)
      end.
      cbn [bind]. eauto.
    + destruct (actuatorSteering (actuator pipe) (output st) p1 (scanWorld s))
        as [out w2]. eauto.
Qed.

(** With a constraint that always reports a positive violation below
    the maximum, the loop is left only when its counter runs out. *)
Lemma negotiate_exhausts
  (rlt_trans : forall a b c, rlt a b = true -> rlt b c = true -> rlt a c = true)
  (c : Constraint real World Path) :
  In c (constraints pipe) ->
  (forall p mp w w',
      rlt r0 (fst (willViolate c p mp w)) = true /\
      rlt (fst (willViolate c p mp w)) (getMaxPriority p w') = true) ->
  forall steps i goal viol p st, exists st2 ev,
    nego steps i goal viol p st = Ok (Exhausted, st2, ev).
Proof.
  intros Hin Hc.
  induction steps as [| steps IH]; intros i goal viol p st;
    cbn [negotiate].
  - eauto.
  - destruct (getPath (actuator pipe) p goal (world st)) as [p1 w1].
    match goal with
    | |- context [checkConstraints rlt r0 ?f 0 ?cs p1 ?s0] =>
        pose proof (checkConstraints_found rlt_trans cs f 0 p1 s0
                      (getMaxPriority p1 w1) c Hin
                      (fun mp w => Hc p1 mp w w1)
                      (or_introl eq_refl)) as Hfound;
        destruct (checkConstraints rlt r0 f 0 cs p1 s0) as [s evc]
    end.
    cbn [fst] in Hfound. destruct Hfound as [-> Hptr].
    destruct (violatingConstraint s) as [[k c'] |] eqn:V; [| congruence].
    destruct (suggest c' p1 (scanWorld s)) as [goal1 w2].
    match goal with
    | |- context [negotiate rlt r0 getMaxPriority pipe steps ?a ?b ?c ?d ?e] =>
        destruct (IH a b c d e) as (st2 & ev & ->)
    end.
    cbn [bind]. eauto.
Qed.

(** ** [getSteering] *)

(** The phases before the loop make no call that the loop makes, and
    hand it the goal, the path object and the caller's output. *)
Lemma getSteering_phases (uninit : Goal real) (st : PipeState real World Path) :
  exists goal w1 (evT : list Ev),
    runTargeters 0 (targeters pipe) (newGoal uninit) (world st)
    = Ok (goal, w1, evT) /\
    exists (ev0 : list Ev),
      calls isGetPath ev0 = 0 /\
      calls isActuatorSteering ev0 = 0 /\
      calls isFallback ev0 = 0 /\
      let D := runDecomposers (Path := Path) 0 (decomposers pipe) goal w1 in
      let P := match path st with
               | Some p => (p, snd (fst D))
               | None => createPathObject (actuator pipe) (snd (fst D))
               end in
      steer uninit st
      = ('(e, st2, evN) <-
           nego (constraintSteps pipe) 0 (fst (fst D)) None (fst P)
                (mkState (snd P) (Some (fst P)) (suggestionUsed st) (output st)) ;;
         match e with
         | Returned => Ok (st2, ev0 ++ evN)
         | Exhausted =>
             match fallback pipe with
             | Some fb =>
                 Ok (mkState
                       (snd (behaviourSteering fb (output st2) (world st2)))
                       (path st2) (suggestionUsed st2)
                       (fst (behaviourSteering fb (output st2) (world st2))),
                     ev0 ++ evN ++ [CallFallback])
             | None => Ok (st2, ev0 ++ evN)
             end
         end).
Proof.
  destruct (runTargeters_returns (targeters pipe) 0 (newGoal uninit) (world st))
    as (goal & w1 & evT & HT & HTc).
  exists goal, w1, evT. split; [exact HT |].
  unfold getSteering. rewrite HT. cbn [bind].
  pose proof (runDecomposers_calls (decomposers pipe) 0 goal w1) as HDc.
  destruct (runDecomposers 0 (decomposers pipe) goal w1) as [[goal1 w2] evD].
  cbn [fst snd] in *.
  assert (HP : exists p w3 (evP : list Ev),
             (forall f : Ev -> bool, f CallCreatePathObject = false ->
                                     calls f evP = 0) /\
             match path st with
             | Some p => (p, w2, [])
             | None => let (p, w) := createPathObject (actuator pipe) w2 in
                       (p, w, [CallCreatePathObject])
             end = (p, w3, evP) /\
             match path st with
             | Some p => (p, w2)
             | None => createPathObject (actuator pipe) w2
             end = (p, w3)).
  { destruct (path st) as [p |].
    - exists p, w2, []. repeat split. 
    - destruct (createPathObject (actuator pipe) w2) as [p w].
      exists p, w, [CallCreatePathObject]. repeat split.
      intros f Hf. rewrite calls_cons, Hf. reflexivity. }
  destruct HP as (p & w3 & evP & HPc & -> & ->). cbn [fst snd].
  exists (evT ++ evD ++ evP).
  rewrite !calls_app.
  rewrite !HTc, !HDc, !HPc by reflexivity.
  repeat split.
  destruct (nego (constraintSteps pipe) 0 goal1 None p
                 (mkState w3 (Some p) (suggestionUsed st) (output st)))
    as [[[e st2] evN] | f]; cbn [bind]; [| reflexivity].
  destruct e.
  - now rewrite <- !app_assoc.
  - destruct (fallback pipe) as [fb |].
    + destruct (behaviourSteering fb (output st2) (world st2)) as [out w4].
      cbn [fst snd]. now rewrite <- !app_assoc.
    + now rewrite <- !app_assoc.
Qed.

(** [getSteering] returns, after at most [constraintSteps] steps of
    negotiation. *)
Lemma getSteering_returns
  (rlt_irrefl : forall a, rlt a a = false)
  (uninit : Goal real) (st : PipeState real World Path) :
  exists st' ev,
    steer uninit st = Ok (st', ev) /\
    iterations ev <= constraintSteps pipe.
Proof.
  destruct (getSteering_phases uninit st)
    as (goal & w1 & evT & _ & ev0 & H1 & H2 & H3 & Hrun).
  cbv zeta in Hrun. rewrite Hrun. clear Hrun.
  match goal with
  | |- context [negotiate rlt r0 getMaxPriority pipe ?n ?a ?b ?c ?d ?e] =>
      destruct (negotiate_returns rlt_irrefl n a b c d e)
        as (e' & st2 & evN & Hn)
  end.
  rewrite Hn. cbn [bind]. apply negotiate_exit in Hn as [Hf He].
  unfold iterations in *.
  destruct e'.
  - eexists; eexists; split; [reflexivity |].
    rewrite calls_app, H1. lia.
  - destruct (fallback pipe) as [fb |];
      (eexists; eexists; split; [reflexivity |]);
      rewrite ?calls_app, H1; cbn; lia.
Qed.

(** ** The claims about the pipeline *)

(** C5.  Bounded negotiation with fallback.  When one of the
    constraints always reports a positive violation strictly below the
    path's [getMaxPriority], [getSteering] makes exactly
    [constraintSteps] steps of negotiation, never asks the actuator for
    the steering, and then calls the fallback behaviour, if there is
    one, exactly once, on the caller's output as it was at entry. *)
Theorem getSteering_bounded_negotiation
  (rlt_trans : forall a b c, rlt a b = true -> rlt b c = true -> rlt a c = true)
  (c : Constraint real World Path)
  (uninit : Goal real) (st : PipeState real World Path) :
  In c (constraints pipe) ->
  (forall p mp w w',
      rlt r0 (fst (willViolate c p mp w)) = true /\
      rlt (fst (willViolate c p mp w)) (getMaxPriority p w') = true) ->
  exists st' ev,
    steer uninit st = Ok (st', ev) /\
    iterations ev = constraintSteps pipe /\
    calls isActuatorSteering ev = 0 /\
    match fallback pipe with
    | Some fb =>
        exists ev0 w,
          ev = ev0 ++ [CallFallback] /\
          calls isFallback ev0 = 0 /\
          output st' = fst (behaviourSteering fb (output st) w)
    | None => calls isFallback ev = 0 /\ output st' = output st
    end.
Proof.
  intros Hin Hc.
  destruct (getSteering_phases uninit st)
    as (goal & w1 & evT & _ & ev0 & H1 & H2 & H3 & Hrun).
  cbv zeta in Hrun. rewrite Hrun. clear Hrun.
  match goal with
  | |- context [negotiate rlt r0 getMaxPriority pipe ?n ?a ?b ?c0 ?d ?e] =>
      destruct (negotiate_exhausts rlt_trans c Hin Hc n a b c0 d e)
        as (st2 & evN & Hn)
  end.
  rewrite Hn. cbn [bind]. apply negotiate_exit in Hn as (Hf & Hout & Hit & Hact).
  cbn [output] in Hout. unfold iterations in *.
  destruct (fallback pipe) as [fb |].
  - eexists; eexists. split; [reflexivity |].
    rewrite !calls_app, H1, H2, Hit, Hact. cbn.
    split; [lia |]. split; [reflexivity |].
    exists (ev0 ++ evN), (world st2).
    rewrite calls_app, H3, Hf, Hout, <- app_assoc. auto.
  - eexists; eexists. split; [reflexivity |].
    rewrite !calls_app, H1, H2, H3, Hit, Hact, Hf. auto.
Qed.

(** C8, as the code has it.  With no constraint and [constraintSteps]
    at least 1, [getSteering] leaves the loop in its first step: the
    actuator computes the path for the goal the targeters and
    decomposers produced, its [getSteering] is called once on that
    path and the caller's output, and the fallback is not called. *)
Theorem getSteering_no_constraints
  (rlt_irrefl : forall a, rlt a a = false)
  (uninit : Goal real) (st : PipeState real World Path) :
  constraints pipe = [] ->
  constraintSteps pipe <> 0 ->
  exists goal w1 (evT : list Ev),
    runTargeters 0 (targeters pipe) (newGoal uninit) (world st)
    = Ok (goal, w1, evT) /\
    let D := runDecomposers (Path := Path) 0 (decomposers pipe) goal w1 in
    let P := match path st with
             | Some p => (p, snd (fst D))
             | None => createPathObject (actuator pipe) (snd (fst D))
             end in
    let G := getPath (actuator pipe) (fst P) (fst (fst D)) (snd P) in
    let S := actuatorSteering (actuator pipe) (output st) (fst G) (snd G) in
    exists ev0,
      steer uninit st
      = Ok (mkState (snd S) (Some (fst G)) (suggestionUsed st) (fst S),
            ev0 ++ [CallGetPath (fst (fst D)); CallActuatorSteering (fst G)]) /\
      calls isGetPath ev0 = 0 /\
      calls isActuatorSteering ev0 = 0 /\
      calls isFallback ev0 = 0.
Proof.
  intros Hcs Hsteps.
  destruct (getSteering_phases uninit st)
    as (goal & w1 & evT & HT & ev0 & H1 & H2 & H3 & Hrun).
  exists goal, w1, evT. split; [exact HT |].
  cbv zeta in Hrun |- *. rewrite Hrun. clear Hrun.
  exists ev0.
  destruct (constraintSteps pipe) as [| n]; [contradiction |].
  cbn [negotiate]. rewrite Hcs. cbn [checkConstraints shortestViolation
                                     scanWorld scanFlags world output].
  match goal with
  | |- context [getPath ?a ?b ?c0 ?d] => destruct (getPath a b c0 d) as [p1 w4]
  end.
  rewrite rlt_irrefl. cbn [fst snd].
  destruct (actuatorSteering (actuator pipe) (output st) p1 w4) as [out w5].
  cbn [bind fst snd app]. auto.
Qed.

(** C10.  Without a fallback behaviour, a run of [getSteering] that
    never reaches the actuator's [getSteering] (the loop ran out of
    steps) has made all its [constraintSteps] steps and returns with
    the caller's output exactly as it was at entry. *)
Theorem getSteering_no_fallback_keeps_output
  (uninit : Goal real) (st st' : PipeState real World Path) (ev : list Ev) :
  fallback pipe = None ->
  steer uninit st = Ok (st', ev) ->
  calls isActuatorSteering ev = 0 ->
  output st' = output st /\
  iterations ev = constraintSteps pipe /\
  calls isFallback ev = 0.
Proof.
  intros Hfb Hrun Hact.
  destruct (getSteering_phases uninit st)
    as (goal & w1 & evT & _ & ev0 & H1 & H2 & H3 & Hphases).
  cbv zeta in Hphases. rewrite Hphases in Hrun. clear Hphases.
  match type of Hrun with
  | context [negotiate rlt r0 getMaxPriority pipe ?n ?a ?b ?c0 ?d ?e] =>
      destruct (negotiate rlt r0 getMaxPriority pipe n a b c0 d e)
        as [[[e' st2] evN] | f] eqn:Hn
  end; cbn [bind] in Hrun; [| discriminate].
  apply negotiate_exit in Hn as [Hf He].
  destruct e'.
  - inversion Hrun; subst. rewrite calls_app in Hact. lia.
  - rewrite Hfb in Hrun. inversion Hrun; subst.
    destruct He as (Hout & Hit & _). cbn [output] in Hout.
    unfold iterations in *. rewrite !calls_app, H1, H3, Hit, Hf. auto.
Qed.

End PipeFacts.

(** ** The pipe over the rationals *)

Lemma Qltb_irrefl (a : Q) : Qltb a a = false.
Proof. apply Qltb_false. apply Qle_refl. Qed.

Lemma Qltb_trans (a b c : Q) :
  Qltb a b = true -> Qltb b c = true -> Qltb a c = true.
Proof.
  rewrite !Qltb_true. intros H1 H2. now apply Qlt_trans with b.
Qed.

Lemma goal_merge_disjoint_union_witness :
  (exists g,
      updateGoal seekGoal faceGoal = Ok g /\
      positionSet g = true /\ orientationSet g = true /\
      velocitySet g = false /\ rotationSet g = false /\
      position g = position seekGoal /\
      orientation g = orientation faceGoal) /\
  canMergeGoals seekGoal dodgeGoal = false.
Proof.
  split.
  - destruct (proj1 (goal_merge_disjoint_union seekGoal faceGoal))
      as (_ & g & Hu & Hp & Ho & Hv & Hr & Hpa & _ & _ & Hob & _).
    { unfold sharedChannel. cbn. intuition discriminate. }
    exists g. repeat split; try assumption.
    + now apply Hpa.
    + now apply Hob.
  - apply (proj2 (goal_merge_disjoint_union seekGoal dodgeGoal)).
    left. split; reflexivity.
Defined.

Lemma getSteering_bounded_negotiation_witness :
  exists st' ev,
    demoSteering [stubbornConstraint] 3 (Some brake) = Ok (st', ev) /\
    iterations ev = 3 /\
    calls isActuatorSteering ev = 0 /\
    exists ev0 w,
      ev = ev0 ++ [CallFallback] /\
      calls isFallback ev0 = 0 /\
      output st' = fst (behaviourSteering brake (output demoState) w).
Proof.
  apply (getSteering_bounded_negotiation Q Qltb 0%Q nat (Goal Q) demoMaxPriority
           (demoPipe [stubbornConstraint] 3 (Some brake))
           Qltb_trans stubbornConstraint idleGoal demoState).
  - left. reflexivity.
  - intros p mp w w'. split; reflexivity.
Defined.

Lemma getSteering_no_constraints_witness :
  exists ev0,
    demoSteering [] 3 (Some brake)
    = Ok (mkState 2 (Some (copyChannels seekGoal faceGoal)) [true]
                  (mkOutput (position seekGoal) 0%Q),
          ev0 ++ [CallGetPath (copyChannels seekGoal faceGoal);
                  CallActuatorSteering (copyChannels seekGoal faceGoal)]) /\
    calls isGetPath ev0 = 0 /\
    calls isActuatorSteering ev0 = 0 /\
    calls isFallback ev0 = 0.
Proof.
  destruct (getSteering_no_constraints Q Qltb 0%Q nat (Goal Q) demoMaxPriority
              (demoPipe [] 3 (Some brake)) Qltb_irrefl idleGoal demoState
              eq_refl (fun E => O_S 2 (eq_sym E)))
    as (goal & w1 & evT & HT & Hrun).
  injection HT as <- <- <-. exact Hrun.
Defined.

Lemma getSteering_no_constraints_zero_steps :
  constraints (demoPipe [] 0 (Some brake)) = [] /\
  exists st' ev,
    demoSteering [] 0 (Some brake) = Ok (st', ev) /\
    iterations ev = 0 /\
    calls isActuatorSteering ev = 0 /\
    calls isFallback ev = 1 /\
    output st' = mkOutput origin 0%Q.
Proof.
  split; [reflexivity |].
  eexists; eexists. split; [vm_compute; reflexivity |].
  repeat split.
Qed.

Lemma getSteering_no_fallback_keeps_output_witness :
  exists st' ev,
    demoSteering [stubbornConstraint] 3 None = Ok (st', ev) /\
    output st' = output demoState /\
    iterations ev = 3 /\
    calls isFallback ev = 0.
Proof.
  eexists; eexists. split; [vm_compute; reflexivity |].
  eapply (getSteering_no_fallback_keeps_output Q Qltb 0%Q nat (Goal Q)
            demoMaxPriority (demoPipe [stubbornConstraint] 3 None)
            idleGoal demoState).
  - reflexivity.
  - vm_compute. reflexivity.
  - reflexivity.
Defined.

End PipelineFacts.

(* ================================================================== *)
(** * Facts about [<] in single precision *)

Module SingleFacts.
Import Single.

Lemma rlt_irrefl (a : real) : rlt a a = false.
Proof.
  unfold rlt, SFltb, SFcompare.
  destruct a as [s | s | | s m e]; try (destruct s; reflexivity);
    try reflexivity.
  rewrite Z.compare_refl.
  change (Pos.compare_cont Eq m m) with (Pos.compare m m).
  rewrite Pos.compare_refl. now destruct s.
Qed.

Lemma rlt_trans (a b c : real) :
  rlt a b = true -> rlt b c = true -> rlt a c = true.
Proof.
  unfold rlt, SFltb, SFcompare.
  destruct a as [sa | sa | | sa ma ea], b as [sb | sb | | sb mb eb],
           c as [sc | sc | | sc mc ec];
    try destruct sa; try destruct sb; try destruct sc;
    intros H1 H2; try discriminate H1; try discriminate H2; try reflexivity.
  all: revert H1 H2;
    change (Pos.compare_cont Eq ma mb) with (Pos.compare ma mb);
    change (Pos.compare_cont Eq mb mc) with (Pos.compare mb mc);
    change (Pos.compare_cont Eq ma mc) with (Pos.compare ma mc).
  all: destruct (Z.compare_spec ea eb), (Z.compare_spec eb ec),
         (Z.compare_spec ea ec); try discriminate; try reflexivity; try lia.
  all: destruct (Pos.compare_spec ma mb), (Pos.compare_spec mb mc),
         (Pos.compare_spec ma mc); cbn [CompOpp];
    try discriminate; try reflexivity; try lia.
Qed.

Lemma rlt_asym (a b : real) : rlt a b = true -> rlt b a = false.
Proof.
  intro H. destruct (rlt b a) eqn:E; [| reflexivity].
  pose proof (rlt_trans a b a H E) as Haa.
  rewrite rlt_irrefl in Haa. discriminate.
Qed.

Lemma rlt_neq (a b : real) : rlt a b = true -> a <> b.
Proof. intros H ->. rewrite rlt_irrefl in H. discriminate. Qed.

Lemma REAL_MAX_finite : REAL_MAX = S754_finite false 16777215 104.
Proof. vm_compute. reflexivity. Qed.

Lemma r0_zero : r0 = S754_zero false.
Proof. vm_compute. reflexivity. Qed.

(** A value above 0 and below [REAL_MAX] is finite and positive. *)
Lemma positive_finite (v : real) :
  rlt r0 v = true -> rlt v REAL_MAX = true ->
  exists m e, v = S754_finite false m e.
Proof.
  rewrite REAL_MAX_finite, r0_zero. unfold rlt, SFltb, SFcompare.
  destruct v as [s | s | | s m e]; try discriminate.
  - destruct s; discriminate.
  - destruct s; [discriminate |]. intros _ _. now exists m, e.
Qed.

(** On finite positive values [<] is a total order. *)
Lemma rle_finite (m1 m2 : positive) (e1 e2 : Z) :
  rlt (S754_finite false m1 e1) (S754_finite false m2 e2) = false ->
  rle (S754_finite false m2 e2) (S754_finite false m1 e1) = true.
Proof.
  unfold rlt, rle, SFltb, SFleb, SFcompare.
  change (Pos.compare_cont Eq m1 m2) with (Pos.compare m1 m2).
  change (Pos.compare_cont Eq m2 m1) with (Pos.compare m2 m1).
  rewrite (Z.compare_antisym e1 e2), (Pos.compare_antisym m1 m2).
  destruct (e1 ?= e2)%Z; cbn [CompOpp]; try discriminate; try reflexivity.
  destruct (m1 ?= m2)%positive; cbn [CompOpp];
    try discriminate; reflexivity.
Qed.

End SingleFacts.

(* ================================================================== *)
(** * Properties of the sphere-avoidance constraint *)

Module AvoidSpheresFacts.
Import Pipeline Single AvoidSpheres SingleFacts.

(** The check of one obstacle leaves the constraint as it is and
    answers [REAL_MAX], or answers a value above 0 and below its bound
    and caches a suggestion that has a position. *)
Lemma willViolateSphere_cases (c : AvoidSpheresConstraint)
  (character : Vector3 real) (p : BasicPath) (bound : real) (o : Sphere) :
  willViolateSphere c character p bound o = (REAL_MAX, c) \/
  (rlt r0 (fst (willViolateSphere c character p bound o)) = true /\
   rlt (fst (willViolateSphere c character p bound o)) bound = true /\
   exists pos,
     snd (willViolateSphere c character p bound o) = setSuggestion c pos).
Proof.
  unfold willViolateSphere.
  destruct (negb (positionSet (pathGoal p))); [now left |].
  destruct (rlt r0 (squareMagnitude _)); [| now left].
  destruct (rlt (rsub _ _) _); [| now left].
  destruct (rlt r0 _ && rlt _ bound) eqn:E; [| now left].
  right. apply andb_true_iff in E as [E1 E2].
  cbn [fst snd]. split; [exact E1 |]. split; [exact E2 |].
  eexists. reflexivity.
Qed.




(** ** The constraint in the scenes *)



End AvoidSpheresFacts.


(* ================================================================== *)
(** * Further properties of the action scheduler *)

Module ActionExtras.
Import Actions ActionLists ActionFacts.

Local Open Scope nat_scope.

Section Scheduler.
Context {A : Type} `{ActionClass A}.

(** ** [runActive] *)

Lemma runLoop_spec (l : list A) :
  runLoop l
  = (filter (fun a => negb (isComplete a)) (map act l),
     filter isComplete (map act l)).
Proof.
  induction l as [| a l IH]; [reflexivity |].
  cbn [runLoop map filter]. rewrite IH.
  now destruct (isComplete (act a)).
Qed.

Lemma runActive_spec (m : ActionManager A) :
  active (runActive m)
  = filter (fun a => negb (isComplete a)) (map act (active m)) /\
  deleted (runActive m)
  = deleted m ++ filter isComplete (map act (active m)) /\
  actionQueue (runActive m) = actionQueue m /\
  activePriority (runActive m) = activePriority m.
Proof.
  unfold runActive. rewrite runLoop_spec. cbn. auto.
Qed.

(** X1.  One call of [runActive] makes every active action act exactly
    once, keeps, in their order, those that are not complete afterwards,
    deletes the others, and touches neither the queue nor
    [activePriority]. *)
Theorem runActive_acts_once_and_reaps (m : ActionManager A) :
  active (runActive m)
  = filter (fun a => negb (isComplete a)) (map act (active m)) /\
  deleted (runActive m)
  = deleted m ++ filter isComplete (map act (active m)) /\
  actionQueue (runActive m) = actionQueue m /\
  activePriority (runActive m) = activePriority m.
Proof. exact (runActive_spec m). Qed.

(** ** Ticks *)

Lemma execute_empty_queue (fuel : nat) (ap : Q) (l d : list A) :
  execute fuel (mkManager ap [] l d) = Some (runActive (mkManager ap [] l d)).
Proof.
  unfold execute, checkInterrupts, addAllToActive. reflexivity.
Qed.

Lemma executeTicks_idle (fuel : nat) (ap : Q) (d : list A) :
  forall k,
    executeTicks fuel k (mkManager ap [] [] d) = Some (mkManager ap [] [] d).
Proof.
  induction k as [| k IH]; [reflexivity |].
  cbn [executeTicks]. rewrite execute_empty_queue.
  unfold runActive. cbn. now rewrite app_nil_r.
Qed.

Lemma ticks_of_one_action (fuel : nat) (ap : Q) (d : list A) :
  forall (N : nat) (a : A),
    1 <= N ->
    (forall k, 1 <= k -> k < N -> isComplete (actTimes k a) = false) ->
    isComplete (actTimes N a) = true ->
    (forall k, k < N ->
               executeTicks fuel k (mkManager ap [] [a] d)
               = Some (mkManager ap [] [actTimes k a] d)) /\
    (forall k, N <= k ->
               executeTicks fuel k (mkManager ap [] [a] d)
               = Some (mkManager ap [] [] (d ++ [actTimes N a]))).
Proof.
  induction N as [| N IH]; intros a HN Hrun Hdone; [lia |].
  destruct N as [| N].
  - cbn [actTimes] in Hdone. split.
    + intros k Hk. assert (k = 0) by lia. subst k. reflexivity.
    + intros k Hk. destruct k as [| k]; [lia |].
      cbn [executeTicks actTimes]. rewrite execute_empty_queue.
      unfold runActive. cbn [active runLoop]. rewrite Hdone.
      cbn [activePriority actionQueue deleted].
      apply executeTicks_idle.
  - assert (Hfirst : isComplete (act a) = false)
      by (apply (Hrun 1); lia).
    destruct (IH (act a)) as [Hbefore Hafter].
    + lia.
    + intros k Hk1 Hk2. apply (Hrun (S k)); lia.
    + exact Hdone.
    + assert (Hstep : execute fuel (mkManager ap [] [a] d)
                      = Some (mkManager ap [] [act a] d)).
      { rewrite execute_empty_queue. unfold runActive.
        cbn [active runLoop]. rewrite Hfirst.
        cbn [activePriority actionQueue deleted]. now rewrite app_nil_r. }
      split.
      * intros k Hk. destruct k as [| k]; [reflexivity |].
        cbn [executeTicks actTimes]. rewrite Hstep. apply Hbefore. lia.
      * intros k Hk. destruct k as [| k]; [lia |].
        cbn [executeTicks actTimes]. rewrite Hstep. apply Hafter. lia.
Qed.

(** X2.  Life of an action.  An active action that is first complete
    after its [N]-th [act] (with nothing queued) is active, acted on
    once per tick, through the first [N - 1] calls of [execute]; the
    [N]-th call deletes it, and both lists are empty from then on. *)
Theorem action_lifecycle (fuel : nat) (ap : Q) (d : list A) :
  forall (N : nat) (a : A),
    1 <= N ->
    (forall k, 1 <= k -> k < N -> isComplete (actTimes k a) = false) ->
    isComplete (actTimes N a) = true ->
    (forall k, k < N ->
               executeTicks fuel k (mkManager ap [] [a] d)
               = Some (mkManager ap [] [actTimes k a] d)) /\
    (forall k, N <= k ->
               executeTicks fuel k (mkManager ap [] [a] d)
               = Some (mkManager ap [] [] (d ++ [actTimes N a]))).
Proof. exact (ticks_of_one_action fuel ap d). Qed.

(** ** [checkInterrupts] *)

Lemma findInterrupter_shape (ap : Q) :
  forall (q : list A) (a : A) (q' : list A),
    findInterrupter ap q = Some (a, q') ->
    exists l1 l2,
      q = l1 ++ a :: l2 /\ q' = l1 ++ l2 /\
      canInterrupt a = true /\
      (ap <= priority a)%Q /\
      (forall b, In b l1 -> canInterrupt b = false).
Proof.
  induction q as [| next rest IH]; intros a q' Hfind;
    cbn [findInterrupter] in Hfind; [discriminate |].
  destruct (Qltb (priority next) ap) eqn:Elt; [discriminate |].
  destruct (canInterrupt next) eqn:Eint.
  - injection Hfind as <- <-. exists [], rest.
    repeat split; try assumption.
    + now apply Qltb_false.
    + intros b [].
  - destruct (findInterrupter ap rest) as [[a0 rest'] |] eqn:Erest;
      [| discriminate].
    injection Hfind as <- <-.
    destruct (IH a0 rest' eq_refl) as (l1 & l2 & -> & -> & Hi & Hp & Hl1).
    exists (next :: l1), l2. repeat split; try assumption.
    intros b [<- | Hb]; [exact Eint | now apply Hl1].
Qed.

Lemma sortedQueue_app_le (l1 l2 : list A) :
  sortedQueue (l1 ++ l2) ->
  forall x y, In x l1 -> In y l2 -> (priority y <= priority x)%Q.
Proof.
  induction l1 as [| c l1 IH]; intros Hs x y Hx Hy; [destruct Hx |].
  destruct Hx as [<- | Hx].
  - apply (sortedQueue_all_le c (l1 ++ l2) Hs). apply in_or_app. now right.
  - apply IH; try assumption. exact (sortedQueue_tail _ _ Hs).
Qed.

Lemma sortedQueue_app_right (l1 l2 : list A) :
  sortedQueue (l1 ++ l2) -> sortedQueue l2.
Proof.
  induction l1 as [| c l1 IH]; intro Hs; [exact Hs |].
  apply IH. exact (sortedQueue_tail _ _ Hs).
Qed.

Lemma sortedQueue_cons (a : A) (l : list A) :
  sortedQueue l ->
  (forall b, In b l -> (priority b <= priority a)%Q) ->
  sortedQueue (a :: l).
Proof.
  intros Hs Hle. split; [| exact Hs].
  destruct l as [| b l]; [exact I |]. apply Hle. now left.
Qed.

Lemma sortedQueue_remove (l1 l2 : list A) (a : A) :
  sortedQueue (l1 ++ a :: l2) -> sortedQueue (l1 ++ l2).
Proof.
  induction l1 as [| c l1 IH]; intro Hs.
  - exact (sortedQueue_tail _ _ Hs).
  - cbn [app]. apply sortedQueue_cons.
    + apply IH. exact (sortedQueue_tail _ _ Hs).
    + intros b Hb. apply (sortedQueue_all_le c (l1 ++ a :: l2) Hs).
      apply in_app_or in Hb as [Hb | Hb]; apply in_or_app;
        [now left | right; now right].
Qed.

(** X3.  On a queue in descending order of priority, the action that
    [checkInterrupts] makes active is the first queued action that can
    interrupt; its priority is at least [activePriority] and no queued
    action that can interrupt has a higher priority; the queue loses
    that action and nothing else.  The actions that were active are
    destroyed, the last of the active list first.  No action is taken
    from the queue exactly when no queued action of priority at least
    [activePriority] can interrupt. *)
Theorem checkInterrupts_takes_highest (m : ActionManager A) :
  sortedQueue (actionQueue m) ->
  (forall a q',
      findInterrupter (activePriority m) (actionQueue m) = Some (a, q') ->
      checkInterrupts m
      = mkManager (priority a) q' [a] (deleted m ++ rev (active m)) /\
      (exists l1 l2,
          actionQueue m = l1 ++ a :: l2 /\ q' = l1 ++ l2 /\
          (forall b, In b l1 -> canInterrupt b = false)) /\
      canInterrupt a = true /\
      (activePriority m <= priority a)%Q /\
      (forall b, In b (actionQueue m) -> canInterrupt b = true ->
                 (priority b <= priority a)%Q)) /\
  (findInterrupter (activePriority m) (actionQueue m) = None <->
   forall b, In b (actionQueue m) ->
             (activePriority m <= priority b)%Q -> canInterrupt b = false) /\
  (findInterrupter (activePriority m) (actionQueue m) = None ->
   checkInterrupts m = m).
Proof.
  intro Hs. split; [| split].
  - intros a q' Hfind. split.
    { unfold checkInterrupts. now rewrite Hfind. }
    destruct (findInterrupter_shape _ _ _ _ Hfind)
      as (l1 & l2 & Hq & Hq' & Hint & Hprio & Hl1).
    split; [exists l1, l2; auto |]. split; [exact Hint |].
    split; [exact Hprio |].
    intros b Hb Hbint. rewrite Hq in Hb, Hs.
    apply in_app_or in Hb as [Hb | [<- | Hb]].
    + rewrite (Hl1 b Hb) in Hbint. discriminate.
    + apply Qle_refl.
    + apply (sortedQueue_all_le a l2).
      * exact (sortedQueue_app_right _ _ Hs).
      * exact Hb.
  - generalize (activePriority m). intro ap.
    induction (actionQueue m) as [| next rest IH]; cbn [findInterrupter].
    + split; [intros _ b [] | reflexivity].
    + assert (Hrest : sortedQueue rest) by exact (sortedQueue_tail _ _ Hs).
      specialize (IH Hrest).
      destruct (Qltb (priority next) ap) eqn:Elt.
      * split; [| reflexivity]. intros _ b Hb Hge.
        apply Qltb_true in Elt.
        destruct Hb as [<- | Hb]; [lra |].
        pose proof (sortedQueue_all_le next rest Hs b Hb). lra.
      * apply Qltb_false in Elt.
        destruct (canInterrupt next) eqn:Eint.
        -- split; [discriminate |]. intro Hall.
           rewrite (Hall next (or_introl eq_refl) Elt) in Eint. discriminate.
        -- destruct (findInterrupter ap rest) as [[a0 r0] |].
           ++ split; [discriminate |]. intro Hall.
              assert (Hnone : @None (A * list A) = None) by reflexivity.
              destruct IH as [_ IH].
              discriminate IH. intros b Hb. apply Hall. now right.
           ++ split; [| reflexivity]. intros _ b [<- | Hb] Hge;
                [exact Eint |].
              destruct IH as [IH _]. now apply IH.
  - intro Hnone. unfold checkInterrupts. now rewrite Hnone.
Qed.

(** ** [addAllToActive] *)

Lemma addLoop_result (fuel : nat) :
  forall (q act_ q' act' : list A),
    addLoop fuel q act_ = Some (q', act') ->
    (q' = q /\ act' = act_) \/
    (exists next rest,
        q = next :: rest /\ q' = rest /\ act_ = [] /\ act' = [next]).
Proof.
  induction q as [| next rest IH]; intros act_ q' act' Hrun;
    cbn [addLoop] in Hrun.
  - injection Hrun as <- <-. now left.
  - destruct (compatibleWithActive fuel act_ next) as [[|] |] eqn:Ec;
      [| | discriminate].
    + apply compatibleWithActive_ends_on_empty in Ec. subst act_.
      injection Hrun as <- <-. right. now exists next, rest.
    + destruct (addLoop fuel rest act_) as [[q1 a1] |] eqn:Er;
        [| discriminate].
      injection Hrun as <- <-.
      destruct (IH act_ q1 a1 Er) as [[-> ->] | (n & r & -> & -> & -> & _)].
      * now left.
      * destruct fuel; cbn in Ec; discriminate.
Qed.

(** X4.  [addAllToActive] never adds to an active set that is not
    empty: when it returns on such a set it has changed nothing.  On an
    empty active set it moves the first queued action, and that one
    only. *)
Theorem addAllToActive_moves_only_into_empty
  (fuel : nat) (m m' : ActionManager A) :
  addAllToActive fuel m = Some m' ->
  (active m <> [] -> m' = m) /\
  (active m = [] ->
   match actionQueue m with
   | [] => m' = m
   | next :: rest =>
       m' = mkManager (activePriority m) rest [next] (deleted m)
   end).
Proof.
  unfold addAllToActive. intro Hrun.
  destruct (addLoop fuel (actionQueue m) (active m)) as [[q' a'] |] eqn:El;
    [| discriminate].
  injection Hrun as <-.
  destruct (addLoop_result fuel _ _ _ _ El)
    as [[-> ->] | (next & rest & Hq & -> & Ha & ->)].
  - split.
    + intros _. now destruct m.
    + intro Ha. destruct (actionQueue m) as [| next rest] eqn:Eq.
      * destruct m. cbn in *. now subst.
      * rewrite Ha in El. destruct fuel; cbn in El; [discriminate |].
        injection El as E1 E2. discriminate E2.
  - split.
    + intro Hne. contradiction.
    + intros _. now rewrite Hq.
Qed.

(** ** What [execute] keeps *)

(** X5.  [execute] keeps the queue in descending order of priority. *)
Theorem execute_keeps_queue_sorted (fuel : nat) (m m' : ActionManager A) :
  sortedQueue (actionQueue m) ->
  execute fuel m = Some m' ->
  sortedQueue (actionQueue m').
Proof.
  intros Hs Hrun. unfold execute in Hrun.
  destruct (addAllToActive fuel (checkInterrupts m)) as [m1 |] eqn:Ea;
    [| discriminate].
  injection Hrun as <-.
  destruct (runActive_spec m1) as (_ & _ & -> & _).
  assert (Hc : sortedQueue (actionQueue (checkInterrupts m))).
  { unfold checkInterrupts.
    destruct (findInterrupter (activePriority m) (actionQueue m))
      as [[a q'] |] eqn:Ef; [| exact Hs].
    destruct (findInterrupter_shape _ _ _ _ Ef) as (l1 & l2 & Hq & -> & _).
    cbn [actionQueue]. rewrite Hq in Hs. exact (sortedQueue_remove _ _ _ Hs). }
  unfold addAllToActive in Ea.
  destruct (addLoop fuel (actionQueue (checkInterrupts m))
                    (active (checkInterrupts m))) as [[q' a'] |] eqn:El;
    [| discriminate].
  injection Ea as <-. cbn [actionQueue].
  destruct (addLoop_result fuel _ _ _ _ El)
    as [[-> _] | (next & rest & Hq & -> & _)]; [exact Hc |].
  rewrite Hq in Hc. exact (sortedQueue_tail _ _ Hc).
Qed.

(** X6.  [activePriority] never goes down: [execute] leaves it as it is
    or raises it to the priority of the action that interrupted. *)
Theorem activePriority_never_decreases (fuel : nat) (m m' : ActionManager A) :
  execute fuel m = Some m' ->
  (activePriority m <= activePriority m')%Q.
Proof.
  intro Hrun. unfold execute in Hrun.
  destruct (addAllToActive fuel (checkInterrupts m)) as [m1 |] eqn:Ea;
    [| discriminate].
  injection Hrun as <-.
  destruct (runActive_spec m1) as (_ & _ & _ & ->).
  unfold addAllToActive in Ea.
  destruct (addLoop fuel _ _) as [[q' a'] |]; [| discriminate].
  injection Ea as <-. cbn [activePriority].
  unfold checkInterrupts.
  destruct (findInterrupter (activePriority m) (actionQueue m))
    as [[a q1] |] eqn:Ef; [| apply Qle_refl].
  destruct (findInterrupter_shape _ _ _ _ Ef) as (_ & _ & _ & _ & _ & Hp & _).
  exact Hp.
Qed.

Lemma filter_split_permutation (f : A -> bool) (l : list A) :
  Permutation (filter (fun a => negb (f a)) l ++ filter f l) l.
Proof.
  induction l as [| a l IH]; [constructor |].
  cbn [filter]. destruct (f a); cbn [negb app].
  - apply Permutation_sym, Permutation_cons_app, Permutation_sym, IH.
  - now constructor.
Qed.

(** X7.  No action is lost or duplicated.  The scheduling phases of
    [execute] only move actions between the queue, the active list and
    the deleted ones; [runActive] then replaces each active action by
    what its [act] made of it, in the active list or among the deleted
    ones. *)
Theorem execute_conserves_actions (fuel : nat) (m m' : ActionManager A) :
  execute fuel m = Some m' ->
  exists m1,
    addAllToActive fuel (checkInterrupts m) = Some m1 /\
    m' = runActive m1 /\
    Permutation (actionQueue m1 ++ active m1 ++ deleted m1)
                (actionQueue m ++ active m ++ deleted m) /\
    Permutation (actionQueue m' ++ active m' ++ deleted m')
                (actionQueue m1 ++ map act (active m1) ++ deleted m1).
Proof.
  intro Hrun. unfold execute in Hrun.
  destruct (addAllToActive fuel (checkInterrupts m)) as [m1 |] eqn:Ea;
    [| discriminate].
  injection Hrun as <-. exists m1. split; [reflexivity |].
  split; [reflexivity |]. split.
  - assert (Hc : Permutation
                   (actionQueue (checkInterrupts m)
                    ++ active (checkInterrupts m)
                    ++ deleted (checkInterrupts m))
                   (actionQueue m ++ active m ++ deleted m)).
    { unfold checkInterrupts.
      destruct (findInterrupter (activePriority m) (actionQueue m))
        as [[a q'] |] eqn:Ef; [| apply Permutation_refl].
      destruct (findInterrupter_shape _ _ _ _ Ef) as (l1 & l2 & -> & -> & _).
      cbn [actionQueue active deleted]. rewrite <- !app_assoc.
      apply Permutation_app_head. cbn [app].
      apply Permutation_sym, Permutation_cons_app, Permutation_app_head.
      apply Permutation_trans with (deleted m ++ active m);
        [apply Permutation_app_comm |].
      apply Permutation_app_head. unfold deleteList. apply Permutation_rev. }
    apply Permutation_trans with (2 := Hc).
    unfold addAllToActive in Ea.
    destruct (addLoop fuel (actionQueue (checkInterrupts m))
                      (active (checkInterrupts m))) as [[q' a'] |] eqn:El;
      [| discriminate].
    injection Ea as <-. cbn [actionQueue active deleted].
    destruct (addLoop_result fuel _ _ _ _ El)
      as [[-> ->] | (next & rest & -> & -> & -> & ->)];
      [apply Permutation_refl |].
    cbn [app]. apply Permutation_sym, Permutation_cons_app, Permutation_refl.
  - destruct (runActive_spec m1) as (-> & -> & -> & _).
    apply Permutation_app_head.
    rewrite (Permutation_app_comm (deleted m1)), app_assoc.
    apply Permutation_app_tail. apply filter_split_permutation.
Qed.

(** ** [getLast] *)

Lemma getLastLoop_is_last :
  forall (next : list A) (this : A),
    exists front, this :: next = front ++ [getLastLoop this next].
Proof.
  induction next as [| n rest IH]; intro this; cbn [getLastLoop].
  - now exists [].
  - destruct (IH n) as [front Hfront].
    exists (this :: front). cbn [app]. now rewrite Hfront.
Qed.

(** X8.  [getLast] returns the last action of the chain that starts at
    the action it is called on: the one whose [next] is null. *)
Theorem getLast_is_last (this : A) (next : list A) :
  exists front, this :: next = front ++ [getLast this next].
Proof.
  unfold getLast. destruct next as [| n rest].
  - now exists [].
  - apply getLastLoop_is_last.
Qed.

End Scheduler.

(** ** The further properties on the demo actions *)

Lemma busyManager_sorted : sortedQueue (actionQueue busyManager).
Proof. cbn. unfold Qle. cbn. repeat split; lia. Qed.

Lemma crowdedManager_sorted : sortedQueue (actionQueue crowdedManager).
Proof. exact busyManager_sorted. Qed.

Lemma busyManager_execute :
  execute 1 busyManager
  = Some (mkManager 10 [talkAction; idleAction] [act shoutAction] [walkAction]).
Proof. reflexivity. Qed.

Lemma action_lifecycle_witness :
  executeTicks 1 1 (mkManager 0 [] [walkAction] [])
  = Some (mkManager 0 [] [actTimes 1 walkAction] []) /\
  executeTicks 1 5 (mkManager 0 [] [walkAction] [])
  = Some (mkManager 0 [] [] ([] ++ [actTimes 2 walkAction])).
Proof.
  destruct (@action_lifecycle DemoAction DemoActionClass 1 0%Q [] 2 walkAction)
    as [Hbefore Hafter].
  - lia.
  - intros k H1 H2. assert (k = 1) by lia. subst k. reflexivity.
  - reflexivity.
  - split; [apply Hbefore | apply Hafter]; lia.
Defined.

Lemma checkInterrupts_takes_highest_witness :
  checkInterrupts crowdedManager
  = mkManager (priority shoutAction) [talkAction; idleAction] [shoutAction]
              [idleAction; aimAction; walkAction] /\
  (forall b, In b (actionQueue crowdedManager) -> canInterrupt b = true ->
             (priority b <= priority shoutAction)%Q).
Proof.
  destruct (proj1 (@checkInterrupts_takes_highest DemoAction DemoActionClass
                     crowdedManager crowdedManager_sorted)
                  shoutAction [talkAction; idleAction] eq_refl)
    as (Hc & _ & _ & _ & Hmax).
  split; [exact Hc | exact Hmax].
Defined.

Lemma addAllToActive_moves_only_into_empty_witness :
  (exists m',
      addAllToActive 1 (mkManager 5 [aimAction] [walkAction] []) = Some m' /\
      m' = mkManager 5 [aimAction] [walkAction] []) /\
  (exists m',
      addAllToActive 1 (mkManager 0 [talkAction; walkAction] [] []) = Some m' /\
      m' = mkManager 0 [walkAction] [talkAction] []).
Proof.
  split; eexists; (split; [reflexivity |]).
  - apply (proj1 (@addAllToActive_moves_only_into_empty DemoAction DemoActionClass
                    1 (mkManager 5 [aimAction] [walkAction] []) _ eq_refl)).
    discriminate.
  - exact (proj2 (@addAllToActive_moves_only_into_empty DemoAction DemoActionClass
                    1 (mkManager 0 [talkAction; walkAction] [] []) _ eq_refl)
                 eq_refl).
Defined.

Lemma execute_keeps_queue_sorted_witness :
  sortedQueue [talkAction; idleAction].
Proof.
  exact (@execute_keeps_queue_sorted DemoAction DemoActionClass 1 busyManager _
           busyManager_sorted busyManager_execute).
Defined.

Lemma activePriority_never_decreases_witness : (5 <= 10)%Q.
Proof.
  exact (@activePriority_never_decreases DemoAction DemoActionClass 1
           busyManager _ busyManager_execute).
Defined.

Lemma execute_conserves_actions_witness :
  exists m1,
    addAllToActive 1 (checkInterrupts busyManager) = Some m1 /\
    Permutation (actionQueue m1 ++ active m1 ++ deleted m1)
                (actionQueue busyManager ++ active busyManager
                 ++ deleted busyManager).
Proof.
  destruct (@execute_conserves_actions DemoAction DemoActionClass 1
              busyManager _ busyManager_execute) as (m1 & H1 & _ & H2 & _).
  exists m1. split; assumption.
Defined.

End ActionExtras.

(* ================================================================== *)
(** * Properties of the compound actions *)

Module CompoundExtras.
Import Actions ActionLists Compound ActionExtras.

Local Open Scope nat_scope.

Section Compounds.
Context {L : Type}.
Variable C : LeafClass L.

Local Notation "'times'" := (@actTimes (Tree L) (TreeActionClass C)).
Local Notation "'complete'" := (treeIsComplete C).

(** ** Sequences *)

Lemma sequence_after (prio : Q) :
  forall (k : nat) (subs : list (Tree L)),
    (forall s, In s subs -> complete (treeAct C s) = true) ->
    times k (Sequence prio subs) = Sequence prio (skipn k subs).
Proof.
  induction k as [| k IH]; intros subs Hone; [reflexivity |].
  cbn [actTimes act TreeActionClass].
  destruct subs as [| first rest].
  - cbn [treeAct]. rewrite IH; [now destruct k | intros s []].
  - cbn [treeAct skipn]. rewrite (Hone first) by now left.
    apply IH. intros s Hs. apply Hone. now right.
Qed.

(** X9.  A sequence runs one sub-action per tick.  When each of its
    sub-actions is complete after one [act], an active sequence of [n]
    sub-actions (at least one, nothing queued) has lost its first [k]
    sub-actions after [k] calls of [execute], for [k < n]; the [n]-th
    call empties it and the manager deletes it. *)
Theorem sequence_one_sub_action_per_tick
  (fuel : nat) (ap prio : Q) (d : list (Tree L)) (subs : list (Tree L)) :
  subs <> [] ->
  (forall s, In s subs -> complete (treeAct C s) = true) ->
  (forall k, k < length subs ->
             @executeTicks _ (TreeActionClass C) fuel k
               (mkManager ap [] [Sequence prio subs] d)
             = Some (mkManager ap [] [Sequence prio (skipn k subs)] d)) /\
  (forall k, length subs <= k ->
             @executeTicks _ (TreeActionClass C) fuel k
               (mkManager ap [] [Sequence prio subs] d)
             = Some (mkManager ap [] [] (d ++ [Sequence prio []]))).
Proof.
  intros Hne Hone.
  assert (Hlen : 1 <= length subs)
    by (destruct subs; [congruence | cbn; lia]).
  destruct (@ticks_of_one_action _ (TreeActionClass C) fuel ap d
              (length subs) (Sequence prio subs) Hlen) as [Hbefore Hafter].
  - intros k _ Hk. rewrite (sequence_after prio k subs Hone).
    cbn [isComplete TreeActionClass treeIsComplete].
    destruct (skipn k subs) eqn:E; [| reflexivity].
    apply (f_equal (@length _)) in E. rewrite length_skipn in E.
    cbn in E. lia.
  - rewrite (sequence_after prio _ subs Hone), skipn_all. reflexivity.
  - split.
    + intros k Hk. rewrite (Hbefore k Hk).
      now rewrite (sequence_after prio k subs Hone).
    + intros k Hk. rewrite (Hafter k Hk).
      now rewrite (sequence_after prio _ subs Hone), skipn_all.
Qed.

(** ** Combinations *)

Lemma times_succ (k : nat) (a : Tree L) :
  times (S k) a = times k (treeAct C a).
Proof. reflexivity. Qed.

Lemma times_act (k : nat) :
  forall a : Tree L, times k (treeAct C a) = treeAct C (times k a).
Proof.
  induction k as [| k IH]; intro a; [reflexivity |].
  cbn [actTimes act TreeActionClass]. apply IH.
Qed.

Lemma combination_after (prio : Q) :
  forall (k : nat) (subs : list (Tree L)) (ns : list nat),
    Forall2 (fun s n =>
               (forall j, j < n -> complete (times j s) = false) /\
               complete (times n s) = true) subs ns ->
    times k (Combination prio subs)
    = Combination prio
        (map (fun sn => times (Nat.min k (snd sn)) (fst sn)) (combine subs ns)).
Proof.
  induction k as [| k IH]; intros subs ns Hall.
  - cbn [actTimes]. f_equal.
    induction Hall as [| s n subs ns _ _ IHall]; [reflexivity |].
    cbn [combine map]. rewrite <- IHall. reflexivity.
  - rewrite times_succ. cbn [treeAct].
    rewrite (IH (map (fun s => if complete s then s else treeAct C s) subs)
                (map Nat.pred ns)).
    + f_equal.
      induction Hall as [| s n subs ns [Hbefore Hdone] _ IHall];
        [reflexivity |].
      cbn [combine map fst snd]. rewrite IHall. f_equal.
      destruct n as [| n].
      * cbn [actTimes] in Hdone. rewrite Hdone.
        cbn [Nat.pred]. now rewrite !Nat.min_0_r.
      * assert (H0 : complete s = false) by (apply (Hbefore 0); lia).
        rewrite H0. cbn [Nat.pred].
        replace (Nat.min (S k) (S n)) with (S (Nat.min k n)) by lia.
        reflexivity.
    + induction Hall as [| s n subs ns [Hbefore Hdone] _ IHall];
        [constructor |].
      cbn [map]. constructor; [| exact IHall].
      destruct n as [| n].
      * cbn [actTimes] in Hdone. rewrite Hdone. cbn [Nat.pred].
        split; [intros j Hj; lia | exact Hdone].
      * assert (H0 : complete s = false) by (apply (Hbefore 0); lia).
        rewrite H0. cbn [Nat.pred]. split.
        -- intros j Hj. rewrite <- times_succ. apply Hbefore. lia.
        -- rewrite <- times_succ. exact Hdone.
Qed.

(** X10.  A combination runs each sub-action until it is complete and
    never after.  If sub-action [i] is first complete after [n_i] calls
    of its [act], then after [k] calls of the combination's [act] it has
    acted [min k n_i] times, every sub-action is still in the list, and
    the combination is complete exactly when [k] is at least every
    [n_i]. *)
Theorem combination_runs_each_until_complete
  (prio : Q) (k : nat) (subs : list (Tree L)) (ns : list nat) :
  Forall2 (fun s n =>
             (forall j, j < n -> complete (times j s) = false) /\
             complete (times n s) = true) subs ns ->
  times k (Combination prio subs)
  = Combination prio
      (map (fun sn => times (Nat.min k (snd sn)) (fst sn)) (combine subs ns)) /\
  (complete (times k (Combination prio subs)) = true <->
   forall n, In n ns -> n <= k).
Proof.
  intro Hall. split; [now apply combination_after |].
  rewrite (combination_after prio k subs ns Hall).
  cbn [treeIsComplete]. rewrite forallb_forall.
  induction Hall as [| s n subs ns [Hbefore Hdone] _ IHall].
  - cbn. split; [intros _ n [] | intros _ x []].
  - cbn [combine map fst snd]. split.
    + intros Hc m [<- | Hm].
      * destruct (Nat.le_gt_cases n k) as [Hle | Hgt]; [exact Hle |].
        assert (Hk : complete (times (Nat.min k n) s) = true)
          by (apply Hc; now left).
        rewrite Nat.min_l in Hk by lia.
        rewrite (Hbefore k Hgt) in Hk. discriminate.
      * apply IHall; [| exact Hm].
        intros x Hx. apply Hc. now right.
    + intros Hle x [<- | Hx].
      * rewrite Nat.min_r by (apply Hle; now left). exact Hdone.
      * apply IHall; [| exact Hx].
        intros m Hm. apply Hle. now right.
Qed.

End Compounds.

(** ** The compounds of the demo *)

Lemma sequence_one_sub_action_per_tick_witness :
  @executeTicks _ (TreeActionClass demoLeaves) 1 1
    (mkManager 0 [] [demoSequence] [])
  = Some (mkManager 0 [] [Sequence 0 [oneShot 2]] []) /\
  @executeTicks _ (TreeActionClass demoLeaves) 1 2
    (mkManager 0 [] [demoSequence] [])
  = Some (mkManager 0 [] [] ([] ++ [Sequence 0 []])).
Proof.
  destruct (sequence_one_sub_action_per_tick demoLeaves 1 0%Q 0%Q []
              [oneShot 1; oneShot 2]) as [Hbefore Hafter].
  - discriminate.
  - intros s [<- | [<- | []]]; reflexivity.
  - split.
    + apply (Hbefore 1). cbn. lia.
    + apply (Hafter 2). cbn. lia.
Defined.

Lemma combination_runs_each_until_complete_witness :
  @actTimes _ (TreeActionClass demoLeaves) 2 demoCombination
  = Combination 0
      [Leaf (mkDemo 1 0 false false 0); Leaf (mkDemo 2 0 false false 0)] /\
  (treeIsComplete demoLeaves
     (@actTimes _ (TreeActionClass demoLeaves) 2 demoCombination) = true <->
   forall n, In n [1; 2] -> n <= 2).
Proof.
  apply (combination_runs_each_until_complete demoLeaves 0%Q 2
           [oneShot 1; Leaf (mkDemo 2 0 false false 2)] [1; 2]).
  repeat constructor.
  - intros j Hj. assert (j = 0) by lia. subst j. reflexivity.
  - intros j Hj. destruct j as [| [| j]]; [reflexivity | reflexivity | lia].
Defined.

End CompoundExtras.

(* ================================================================== *)
(** * Further properties of the steering pipeline *)

Module PipelineExtras.
Import Pipeline PipelineSetup PipelineFacts.

Local Open Scope nat_scope.

Section GoalAlgebra.
Context {real : Type}.

(** X11.  Merging goals.  A new goal accepts any goal, and takes from it
    exactly its set channels with their values.  Whether two goals can
    be merged does not depend on which is merged into which.  Copying
    the set channels is associative, and copying from a cleared goal
    changes nothing. *)
Theorem goal_merge_algebra (u a b c : Goal real) :
  (exists g,
      updateGoal (newGoal u) b = Ok g /\
      positionSet g = positionSet b /\
      orientationSet g = orientationSet b /\
      velocitySet g = velocitySet b /\
      rotationSet g = rotationSet b /\
      (positionSet b = true -> position g = position b) /\
      (orientationSet b = true -> orientation g = orientation b) /\
      (velocitySet b = true -> velocity g = velocity b) /\
      (rotationSet b = true -> rotation g = rotation b)) /\
  canMergeGoals a b = canMergeGoals b a /\
  copyChannels (copyChannels a b) c = copyChannels a (copyChannels b c) /\
  copyChannels a (clear b) = a.
Proof.
  split; [| split; [| split]].
  - exists (copyChannels (newGoal u) b). split; [reflexivity |].
    unfold copyChannels, newGoal, clear. cbn.
    destruct (positionSet b), (orientationSet b), (velocitySet b),
      (rotationSet b); repeat split; intros; try reflexivity; try discriminate.
  - unfold canMergeGoals.
    now rewrite (andb_comm (positionSet a)), (andb_comm (orientationSet a)),
      (andb_comm (velocitySet a)), (andb_comm (rotationSet a)).
  - unfold copyChannels. cbn.
    destruct (positionSet b), (positionSet c), (orientationSet b),
      (orientationSet c), (velocitySet b), (velocitySet c),
      (rotationSet b), (rotationSet c); reflexivity.
  - destruct a. reflexivity.
Qed.


End GoalAlgebra.

Section PipeExtras.
Variable real : Type.
Variable rlt : real -> real -> bool.
Variable r0 : real.
Variables World Path : Type.
Variable getMaxPriority : Path -> World -> real.

Local Notation "'Ev'" := (Event real Path).
Local Notation "'Pipe'" := (SteeringPipe real World Path).
Local Notation "'State'" := (PipeState real World Path).
Local Notation "'nego'" := (negotiate rlt r0 getMaxPriority).
Local Notation "'steer'" := (getSteering rlt r0 getMaxPriority).

(** [getSteering] as its phases: the events of the targeters, of the
    decomposers, of the creation of the path object, then the loop. *)
Lemma getSteering_unfold (pipe : Pipe) (uninit : Goal real) (st : State) :
  exists goal w1 (evT : list Ev),
    runTargeters 0 (targeters pipe) (newGoal uninit) (world st)
    = Ok (goal, w1, evT) /\
    let D := runDecomposers (Path := Path) 0 (decomposers pipe) goal w1 in
    let P := match path st with
             | Some p => (p, snd (fst D))
             | None => createPathObject (actuator pipe) (snd (fst D))
             end in
    let evP : list Ev := match path st with
                         | Some _ => []
                         | None => [CallCreatePathObject]
                         end in
    steer pipe uninit st
    = ('(e, st2, evN) <-
         nego pipe (constraintSteps pipe) 0 (fst (fst D)) None (fst P)
              (mkState (snd P) (Some (fst P)) (suggestionUsed st) (output st)) ;;
       match e with
       | Returned => Ok (st2, evT ++ snd D ++ evP ++ evN)
       | Exhausted =>
           match fallback pipe with
           | Some fb =>
               Ok (mkState
                     (snd (behaviourSteering fb (output st2) (world st2)))
                     (path st2) (suggestionUsed st2)
                     (fst (behaviourSteering fb (output st2) (world st2))),
                   evT ++ snd D ++ evP ++ evN ++ [CallFallback])
           | None => Ok (st2, evT ++ snd D ++ evP ++ evN)
           end
       end).
Proof.
  destruct (runTargeters_returns real World Path (targeters pipe) 0
              (newGoal uninit) (world st)) as (goal & w1 & evT & HT & _).
  exists goal, w1, evT. split; [exact HT |].
  unfold getSteering. rewrite HT. cbn [bind].
  destruct (runDecomposers 0 (decomposers pipe) goal w1) as [[goal1 w2] evD].
  cbn [fst snd].
  destruct (path st) as [p |].
  - cbn [fst snd].
    destruct (nego pipe (constraintSteps pipe) 0 goal1 None p
                   (mkState w2 (Some p) (suggestionUsed st) (output st)))
      as [[[e st2] evN] | f]; cbn [bind]; [| reflexivity].
    destruct e; [reflexivity |].
    destruct (fallback pipe) as [fb |]; [| reflexivity].
    now destruct (behaviourSteering fb (output st2) (world st2)).
  - destruct (createPathObject (actuator pipe) w2) as [p w3]. cbn [fst snd].
    destruct (nego pipe (constraintSteps pipe) 0 goal1 None p
                   (mkState w3 (Some p) (suggestionUsed st) (output st)))
      as [[[e st2] evN] | f]; cbn [bind]; [| reflexivity].
    destruct e; [reflexivity |].
    destruct (fallback pipe) as [fb |]; [| reflexivity].
    now destruct (behaviourSteering fb (output st2) (world st2)).
Qed.

Lemma runTargeters_calls (ts : list (Targeter real World)) (i : nat)
  (goal : Goal real) (w : World) (g : Goal real) (w' : World) (ev : list Ev)
  (f : Ev -> bool) :
  runTargeters i ts goal w = Ok (g, w', ev) ->
  (forall k, f (CallGetGoal k) = false) ->
  calls f ev = 0.
Proof.
  intros Hrun Hf.
  destruct (runTargeters_returns real World Path ts i goal w)
    as (g1 & w1 & ev1 & Hrun1 & Hcalls).
  rewrite Hrun in Hrun1. injection Hrun1 as <- <- <-. now apply Hcalls.
Qed.

(** X13.  [getSteering] always answers, and answers once.  With a [<]
    that is irreflexive the run ends (the pointer [violatingConstraint]
    is never used before it is assigned) after at most [constraintSteps]
    steps; the actuator and the fallback are never both asked for the
    steering; when a fallback is configured exactly one of them is; and
    a run that does not reach the actuator has used all its steps. *)
Theorem getSteering_answers_once
  (rlt_irrefl : forall a, rlt a a = false)
  (pipe : Pipe) (uninit : Goal real) (st : State) :
  exists st' ev,
    steer pipe uninit st = Ok (st', ev) /\
    iterations ev <= constraintSteps pipe /\
    calls isActuatorSteering ev + calls isFallback ev <= 1 /\
    (fallback pipe <> None ->
     calls isActuatorSteering ev + calls isFallback ev = 1) /\
    (calls isActuatorSteering ev = 0 -> iterations ev = constraintSteps pipe).
Proof.
  destruct (getSteering_phases real rlt r0 World Path getMaxPriority pipe
              uninit st)
    as (goal & w1 & evT & _ & ev0 & H1 & H2 & H3 & Hrun).
  cbv zeta in Hrun. rewrite Hrun. clear Hrun.
  match goal with
  | |- context [negotiate rlt r0 getMaxPriority pipe ?n ?a ?b ?c ?d ?e] =>
      destruct (negotiate_returns real rlt r0 World Path getMaxPriority pipe
                  rlt_irrefl n a b c d e) as (e' & st2 & evN & Hn)
  end.
  rewrite Hn. cbn [bind].
  apply negotiate_exit in Hn as [Hf He].
  unfold iterations in *.
  destruct e'.
  - eexists; eexists. split; [reflexivity |].
    rewrite !calls_app, H1, H2, H3, Hf.
    destruct He as (Ha & Hb & Hc). rewrite Hc.
    repeat split; intros; lia.
  - destruct He as (_ & Hb & Hc).
    destruct (fallback pipe) as [fb |].
    + eexists; eexists. split; [reflexivity |].
      rewrite !calls_app, H1, H2, H3, Hf, Hb, Hc. cbn.
      repeat split; intros; lia.
    + eexists; eexists. split; [reflexivity |].
      rewrite !calls_app, H1, H2, H3, Hf, Hb, Hc.
      repeat split; intros; try lia. congruence.
Qed.

(** ** The path object *)

Lemma negotiate_path (pipe : Pipe) :
  forall steps i goal viol p st e st2 (ev : list Ev),
    nego pipe steps i goal viol p st = Ok (e, st2, ev) ->
    path st <> None ->
    path st2 <> None /\ calls isCreatePathObject ev = 0.
Proof.
  induction steps as [| steps IH]; intros i goal viol p st e st2 ev Hrun Hp;
    cbn [negotiate] in Hrun.
  - injection Hrun as <- <- <-. now split.
  - destruct (getPath (actuator pipe) p goal (world st)) as [p1 w1].
    match type of Hrun with
    | context [checkConstraints rlt r0 ?f 0 ?cs p1 ?s0] =>
        pose proof (checkConstraints_calls real rlt r0 World Path cs f 0 p1 s0
                      isCreatePathObject (fun _ _ => eq_refl)) as Hcalls;
        destruct (checkConstraints rlt r0 f 0 cs p1 s0) as [s evc]
    end.
    cbn [snd] in Hcalls.
    destruct (rlt (shortestViolation s) (getMaxPriority p1 w1)).
    + destruct (violatingConstraint s) as [[k c] |]; [| discriminate].
      destruct (suggest c p1 (scanWorld s)) as [goal1 w2].
      match type of Hrun with
      | context [negotiate rlt r0 getMaxPriority pipe steps ?a ?b ?c ?d ?e] =>
          destruct (negotiate rlt r0 getMaxPriority pipe steps a b c d e)
            as [[[e' st2'] ev'] | f] eqn:En
      end; cbn [bind] in Hrun; [| discriminate].
      injection Hrun as <- <- <-.
      apply IH in En as [Hp2 Hc2]; [| discriminate].
      split; [exact Hp2 |].
      now rewrite !calls_cons, !calls_app, !calls_cons, Hcalls, Hc2.
    + destruct (actuatorSteering (actuator pipe) (output st) p1 (scanWorld s))
        as [out w2].
      injection Hrun as <- <- <-. split; [discriminate |].
      now rewrite !calls_cons, !calls_app, !calls_cons, Hcalls.
Qed.

(** X14.  The path object is created on first use only.  A run of
    [getSteering] calls the actuator's [createPathObject] once when the
    pipe has no path object and never when it has one, and leaves the
    pipe with a path object.  So the first run after [setActuator]
    creates the path object of the new actuator. *)
Theorem getSteering_creates_path_once
  (pipe : Pipe) (uninit : Goal real) (st st' : State) (ev : list Ev) :
  steer pipe uninit st = Ok (st', ev) ->
  path st' <> None /\
  calls isCreatePathObject ev
  = match path st with Some _ => 0 | None => 1 end /\
  forall (a : Actuator real World Path) (st'' : State) (ev' : list Ev),
    steer (fst (setActuator a pipe st')) uninit (snd (setActuator a pipe st'))
    = Ok (st'', ev') ->
    path st'' <> None /\ calls isCreatePathObject ev' = 1.
Proof.
  assert (Hgen : forall (pp : Pipe) (s s' : State) (e : list Ev),
             steer pp uninit s = Ok (s', e) ->
             path s' <> None /\
             calls isCreatePathObject e
             = match path s with Some _ => 0 | None => 1 end).
  { intros pp s s' e Hrun.
    destruct (getSteering_unfold pp uninit s)
      as (goal & w1 & evT & HT & Hsteer).
    cbv zeta in Hsteer. rewrite Hsteer in Hrun. clear Hsteer.
    pose proof (runTargeters_calls _ _ _ _ _ _ _ isCreatePathObject HT
                  (fun _ => eq_refl)) as HcT.
    pose proof (runDecomposers_calls real World Path (decomposers pp) 0 goal w1
                  isCreatePathObject (fun _ _ => eq_refl)) as HcD.
    match type of Hrun with
    | context [negotiate rlt r0 getMaxPriority pp ?n ?a ?b ?c ?d ?x] =>
        destruct (negotiate rlt r0 getMaxPriority pp n a b c d x)
          as [[[e' st2] evN] | f] eqn:Hn
    end; cbn [bind] in Hrun; [| discriminate].
    apply negotiate_path in Hn as [Hp Hc]; [| discriminate].
    assert (HcP : calls isCreatePathObject
                    (match path s with
                     | Some _ => []
                     | None => [CallCreatePathObject]
                     end : list Ev)
                  = match path s with Some _ => 0 | None => 1 end)
      by (destruct (path s); reflexivity).
    destruct e'.
    - injection Hrun as <- <-. split; [exact Hp |].
      rewrite !calls_app, HcT, HcD, HcP, Hc. lia.
    - destruct (fallback pp) as [fb |]; injection Hrun as <- <-;
        (split; [exact Hp |]);
        rewrite !calls_app, HcT, HcD, HcP, Hc; cbn; lia. }
  intro Hrun. destruct (Hgen pipe st st' ev Hrun) as [Hp Hc].
  split; [exact Hp |]. split; [exact Hc |].
  intros a st'' ev' Hrun'.
  destruct (Hgen _ _ _ _ Hrun') as [Hp' Hc']. split; [exact Hp' |].
  exact Hc'.
Qed.

(** ** The [suggestionUsed] flags *)

Lemma setFlag_length (b : bool) (fl : list bool) :
  forall i, length (setFlag i b fl) = length fl.
Proof.
  induction fl as [| f fl IH]; intros [| i]; cbn; auto.
Qed.

Lemma setFlag_nth (b : bool) (fl : list bool) :
  forall i j,
    nth j (setFlag i b fl) false
    = if Nat.eqb j i && Nat.ltb i (length fl) then b else nth j fl false.
Proof.
  induction fl as [| f fl IH]; intros i j.
  - cbn. rewrite andb_false_r. now destruct i, j.
  - destruct i as [| i], j as [| j]; cbn [setFlag nth length]; try reflexivity.
    rewrite IH. reflexivity.
Qed.

Lemma checkConstraints_flags (cs : list (Constraint real World Path)) :
  forall first i p s j,
    nth j (scanFlags (fst (checkConstraints rlt r0 first i cs p s))) false
    = if first && Nat.leb i j && Nat.ltb j (i + length cs) then false
      else nth j (scanFlags s) false.
Proof.
  induction cs as [| c rest IH]; intros first i p s j;
    cbn [checkConstraints].
  - cbn [fst length]. rewrite Nat.add_0_r.
    destruct first; cbn [andb]; [| reflexivity].
    destruct (Nat.leb_spec i j), (Nat.ltb_spec j i); cbn; try reflexivity; lia.
  - destruct (willViolate c p (shortestViolation s) (scanWorld s))
      as [cur w1].
    match goal with
    | |- context [checkConstraints rlt r0 first (S i) rest p ?s1] =>
        specialize (IH first (S i) p s1 j);
        assert (Hfl : scanFlags s1
                      = if first then setFlag i false (scanFlags s)
                        else scanFlags s)
          by (destruct (rlt r0 cur && rlt cur (shortestViolation s));
              reflexivity);
        destruct (checkConstraints rlt r0 first (S i) rest p s1) as [s2 ev]
    end.
    cbn [fst] in *. rewrite IH, Hfl. clear IH Hfl. cbn [length].
    destruct first; cbn [andb]; [| reflexivity].
    rewrite setFlag_nth.
    destruct (Nat.leb_spec (S i) j), (Nat.leb_spec i j),
      (Nat.ltb_spec j (S i + length rest)),
      (Nat.ltb_spec j (i + S (length rest))),
      (Nat.eqb_spec j i); cbn [andb]; try reflexivity; try lia.
    all: destruct (Nat.ltb_spec i (length (scanFlags s)));
      [reflexivity | subst; apply nth_overflow; lia].
Qed.

Lemma checkConstraints_flags_length (cs : list (Constraint real World Path)) :
  forall first i p s,
    length (scanFlags (fst (checkConstraints rlt r0 first i cs p s)))
    = length (scanFlags s).
Proof.
  induction cs as [| c rest IH]; intros first i p s;
    cbn [checkConstraints]; [reflexivity |].
  destruct (willViolate c p (shortestViolation s) (scanWorld s)) as [cur w1].
  match goal with
  | |- context [checkConstraints rlt r0 first (S i) rest p ?s1] =>
      specialize (IH first (S i) p s1);
      assert (Hfl : length (scanFlags s1) = length (scanFlags s))
        by (destruct (rlt r0 cur && rlt cur (shortestViolation s)),
              first; cbn [scanFlags]; now rewrite ?setFlag_length);
      destruct (checkConstraints rlt r0 first (S i) rest p s1) as [s2 ev]
  end.
  cbn [fst] in *. now rewrite IH.
Qed.

Lemma checkConstraints_index (cs : list (Constraint real World Path)) :
  forall first i p s k c,
    violatingConstraint (fst (checkConstraints rlt r0 first i cs p s))
    = Some (k, c) ->
    violatingConstraint s = Some (k, c) \/ (i <= k /\ k < i + length cs).
Proof.
  induction cs as [| c0 rest IH]; intros first i p s k c Hv;
    cbn [checkConstraints] in Hv.
  - now left.
  - destruct (willViolate c0 p (shortestViolation s) (scanWorld s))
      as [cur w1].
    match type of Hv with
    | context [checkConstraints rlt r0 first (S i) rest p ?s1] =>
        specialize (IH first (S i) p s1 k c);
        assert (Hs1 : violatingConstraint s1 = Some (i, c0) \/
                      violatingConstraint s1 = violatingConstraint s)
          by (destruct (rlt r0 cur && rlt cur (shortestViolation s));
              cbn; auto);
        destruct (checkConstraints rlt r0 first (S i) rest p s1) as [s2 ev]
    end.
    cbn [fst length] in *.
    destruct (IH Hv) as [Hk | Hk]; [| right; lia].
    destruct Hs1 as [Hs1 | Hs1]; rewrite Hs1 in Hk.
    + injection Hk as <- <-. right. lia.
    + now left.
Qed.

Lemma negotiate_flags (pipe : Pipe) :
  forall steps i goal viol p st e st2 (ev : list Ev),
    length (suggestionUsed st) = length (constraints pipe) ->
    (forall k c, viol = Some (k, c) -> k < length (constraints pipe)) ->
    nego pipe steps i goal viol p st = Ok (e, st2, ev) ->
    length (suggestionUsed st2) = length (constraints pipe) /\
    forall j, j < length (constraints pipe) ->
              (nth j (suggestionUsed st2) false = true <->
               ((i <> 0 \/ steps = 0) /\
                nth j (suggestionUsed st) false = true) \/
               0 < calls (isSuggestBy j) ev).
Proof.
  induction steps as [| steps IH]; intros i goal viol p st e st2 ev Hlen Hviol Hrun;
    cbn [negotiate] in Hrun.
  - injection Hrun as <- <- <-. split; [exact Hlen |].
    intros j Hj. cbn. split; [intro Ht; left; auto | intros [[_ Ht] | Ht]];
      [exact Ht | lia].
  - destruct (getPath (actuator pipe) p goal (world st)) as [p1 w1].
    match type of Hrun with
    | context [checkConstraints rlt r0 ?f 0 ?cs p1 ?s0] =>
        pose proof (checkConstraints_calls real rlt r0 World Path cs f 0 p1 s0)
          as Hcalls;
        pose proof (checkConstraints_flags cs f 0 p1 s0) as Hflags;
        pose proof (checkConstraints_flags_length cs f 0 p1 s0) as Hfl;
        pose proof (checkConstraints_index cs f 0 p1 s0) as Hidx;
        destruct (checkConstraints rlt r0 f 0 cs p1 s0) as [s evc]
    end.
    cbn [fst snd scanFlags violatingConstraint] in *.
    assert (Hc0 : forall j, calls (isSuggestBy j) evc = 0)
      by (intro j; apply Hcalls; reflexivity).
    assert (Hold : forall j, j < length (constraints pipe) ->
                (nth j (scanFlags s) false = true <->
                 i <> 0 /\ nth j (suggestionUsed st) false = true)).
    { intros j Hj. rewrite Hflags. cbn [Nat.leb Nat.add andb].
      destruct (Nat.eqb_spec i 0) as [-> | Hi]; cbn [andb].
      - apply Nat.ltb_lt in Hj. rewrite Hj. split; [discriminate | tauto].
      - tauto. }
    destruct (rlt (shortestViolation s) (getMaxPriority p1 w1)).
    + destruct (violatingConstraint s) as [[k c] |] eqn:Ev; [| discriminate].
      assert (Hk : k < length (constraints pipe)).
      { destruct (Hidx k c eq_refl) as [Hk | Hk]; [eauto | lia]. }
      destruct (suggest c p1 (scanWorld s)) as [goal1 w2].
      match type of Hrun with
      | context [negotiate rlt r0 getMaxPriority pipe steps ?a ?b ?c0 ?d ?x] =>
          destruct (negotiate rlt r0 getMaxPriority pipe steps a b c0 d x)
            as [[[e' st2'] ev'] | f] eqn:En
      end; cbn [bind] in Hrun; [| discriminate].
      injection Hrun as <- <- <-.
      assert (Hlen1 : length (setFlag k true (scanFlags s))
                      = length (constraints pipe))
        by (now rewrite setFlag_length, Hfl).
      assert (Hviol1 : forall k0 c0,
                 Some (k, c) = Some (k0, c0) -> k0 < length (constraints pipe))
        by (intros k0 c0 Hv; injection Hv as <- <-; exact Hk).
      eapply IH in En; [| exact Hlen1 | exact Hviol1].
      destruct En as [Hlen2 Hiff].
      split; [exact Hlen2 |]. intros j Hj.
        rewrite (Hiff j Hj). cbn [suggestionUsed].
        rewrite setFlag_nth, Hfl, Hlen.
        apply Nat.ltb_lt in Hk as Hkb. rewrite Hkb, andb_true_r.
        rewrite !calls_cons, !calls_app, !calls_cons, Hc0.
        cbn [isSuggestBy].
        specialize (Hold j Hj).
        destruct (Nat.eqb_spec j k) as [-> | Hjk].
        -- rewrite Nat.eqb_refl. split; intros _; [right; lia | left].
           split; [left; lia | reflexivity].
        -- assert (Hne : Nat.eqb k j = false) by (apply Nat.eqb_neq; lia).
           rewrite Hne. cbn [Nat.add].
           split.
           ++ intros [[_ Ht] | Ht]; [| right; lia].
              left. split; [left |]; tauto.
           ++ intros [[[Hi | Hs] Ht] | Ht];
                [left; split; [left; lia | tauto]
                | discriminate Hs
                | right; lia].
    + destruct (actuatorSteering (actuator pipe) (output st) p1 (scanWorld s))
        as [out w2].
      injection Hrun as <- <- <-. cbn [suggestionUsed].
      split; [now rewrite Hfl |]. intros j Hj.
      rewrite !calls_cons, !calls_app, !calls_cons, Hc0, calls_nil.
      cbn [isSuggestBy Nat.add].
      rewrite (Hold j Hj). split.
      * intros [Hi Ht]. left. split; [left |]; assumption.
      * intros [[[Hi | Hs] Ht] | Ht]; try lia. tauto.
Qed.

(** X15.  After a run of [getSteering] with [constraintSteps] at least
    1, the [suggestionUsed] flag of a constraint is set exactly when
    its [suggest] was called in that run, whatever the flags were
    before.  With [constraintSteps] 0 the flags are left as they
    were. *)
Theorem getSteering_flags_tell_suggestions
  (pipe : Pipe) (uninit : Goal real) (st st' : State) (ev : list Ev) :
  length (suggestionUsed st) = length (constraints pipe) ->
  steer pipe uninit st = Ok (st', ev) ->
  length (suggestionUsed st') = length (constraints pipe) /\
  (constraintSteps pipe <> 0 ->
   forall j, j < length (constraints pipe) ->
             (nth j (suggestionUsed st') false = true <->
              0 < calls (isSuggestBy j) ev)) /\
  (constraintSteps pipe = 0 ->
   suggestionUsed st' = suggestionUsed st).
Proof.
  intros Hlen Hrun.
  destruct (getSteering_unfold pipe uninit st)
    as (goal & w1 & evT & HT & Hsteer).
  cbv zeta in Hsteer. rewrite Hsteer in Hrun. clear Hsteer.
  match type of Hrun with
  | context [negotiate rlt r0 getMaxPriority pipe ?n ?a ?b ?c ?d ?x] =>
      destruct (negotiate rlt r0 getMaxPriority pipe n a b c d x)
        as [[[e' st2] evN] | f] eqn:Hn
  end; cbn [bind] in Hrun; [| discriminate].
  assert (Hzero : constraintSteps pipe = 0 ->
                  suggestionUsed st2 = suggestionUsed st).
  { intro Hz. rewrite Hz in Hn. cbn [negotiate] in Hn.
    now injection Hn as <- <- <-. }
  apply negotiate_flags in Hn as [Hlen2 Hiff];
    [| exact Hlen | discriminate].
  cbn [suggestionUsed] in Hiff.
  assert (HcT : forall j, calls (isSuggestBy j) evT = 0)
    by (intro j; exact (runTargeters_calls _ _ _ _ _ _ _ (isSuggestBy j) HT
                          (fun _ => eq_refl))).
  assert (HcD : forall j,
             calls (isSuggestBy j)
                   (snd (runDecomposers (Path := Path) 0
                           (decomposers pipe) goal w1)) = 0)
    by (intro j;
        exact (runDecomposers_calls real World Path (decomposers pipe) 0 goal
                 w1 (isSuggestBy j) (fun _ _ => eq_refl))).
  assert (HcP : forall j,
             calls (isSuggestBy j)
                   (match path st with
                    | Some _ => []
                    | None => [CallCreatePathObject]
                    end : list Ev) = 0)
    by (intro j; destruct (path st); reflexivity).
  assert (Hfinal : forall j, j < length (constraints pipe) ->
             constraintSteps pipe <> 0 ->
             (nth j (suggestionUsed st2) false = true <->
              0 < calls (isSuggestBy j) evN)).
  { intros j Hj Hne. rewrite (Hiff j Hj). split.
    - intros [[[Hi | Hs] _] | Ht]; [congruence | congruence | exact Ht].
    - intro Ht. now right. }
  destruct e'.
  - injection Hrun as <- <-. split; [exact Hlen2 |]. split; [| exact Hzero].
    intros Hne j Hj. rewrite (Hfinal j Hj Hne).
    rewrite !calls_app, HcT, HcD, HcP. reflexivity.
  - destruct (fallback pipe) as [fb |]; injection Hrun as <- <-;
      cbn [suggestionUsed];
      (split; [exact Hlen2 |]); (split; [| exact Hzero]);
      intros Hne j Hj; rewrite (Hfinal j Hj Hne);
      rewrite !calls_app, HcT, HcD, HcP;
      cbn; split; intro; lia.
Qed.

End PipeExtras.

(** ** The further properties on the pipe over the rationals *)


Lemma getSteering_answers_once_witness :
  exists st' ev,
    demoSteering [stubbornConstraint] 3 (Some brake) = Ok (st', ev) /\
    iterations ev <= 3 /\
    calls isActuatorSteering ev + calls isFallback ev <= 1 /\
    (Some brake <> None ->
     calls isActuatorSteering ev + calls isFallback ev = 1) /\
    (calls isActuatorSteering ev = 0 -> iterations ev = 3).
Proof.
  exact (getSteering_answers_once Q Qltb 0%Q nat (Goal Q) demoMaxPriority
           Qltb_irrefl (demoPipe [stubbornConstraint] 3 (Some brake))
           idleGoal demoState).
Defined.

Lemma getSteering_creates_path_once_witness :
  exists st' ev,
    demoSteering [] 3 None = Ok (st', ev) /\
    path st' <> None /\
    calls isCreatePathObject ev = 1.
Proof.
  eexists; eexists. split; [vm_compute; reflexivity |].
  destruct (getSteering_creates_path_once Q Qltb 0%Q nat (Goal Q)
              demoMaxPriority (demoPipe [] 3 None) idleGoal demoState _ _
              eq_refl) as (Hp & Hc & _).
  split; [exact Hp | exact Hc].
Defined.

Lemma getSteering_flags_tell_suggestions_witness :
  exists st' ev,
    demoSteering [stubbornConstraint] 3 None = Ok (st', ev) /\
    (nth 0 (suggestionUsed st') false = true <->
     0 < calls (isSuggestBy 0) ev).
Proof.
  destruct (demoSteering [stubbornConstraint] 3 None) as [[st' ev] | f] eqn:Hrun.
  - exists st', ev. split; [reflexivity |].
    destruct (getSteering_flags_tell_suggestions Q Qltb 0%Q nat (Goal Q)
                demoMaxPriority (demoPipe [stubbornConstraint] 3 None)
                idleGoal demoState st' ev eq_refl Hrun) as (_ & Hflags & _).
    apply Hflags.
    + discriminate.
    + cbn. lia.
  - vm_compute in Hrun. discriminate.
Defined.

End PipelineExtras.

(* ================================================================== *)
(** * Further properties of the sphere-avoidance constraint *)

Module AvoidSpheresExtras.
Import Pipeline Single AvoidSpheres SingleFacts AvoidSpheresFacts.

(** ** One obstacle *)

Lemma willViolateSphere_margin (c1 c2 : AvoidSpheresConstraint)
  (character : Vector3 real) (p : BasicPath) (bound : real) (o : Sphere) :
  avoidMargin c1 = avoidMargin c2 ->
  fst (willViolateSphere c1 character p bound o)
  = fst (willViolateSphere c2 character p bound o).
Proof.
  intro Hm. unfold willViolateSphere. rewrite Hm.
  repeat match goal with
         | |- context [if ?b then _ else _] => destruct b
         end; reflexivity.
Qed.

(** A bound the loop can pass to the check of an obstacle. *)
Lemma bound_not_above (bound : real) :
  bound = REAL_MAX \/ rlt bound REAL_MAX = true ->
  rlt REAL_MAX bound = false.
Proof.
  intros [-> | H]; [apply rlt_irrefl | now apply rlt_asym].
Qed.

Lemma below_bound (d bound : real) :
  bound = REAL_MAX \/ rlt bound REAL_MAX = true ->
  rlt d bound = true -> rlt d REAL_MAX = true.
Proof.
  intros [-> | H] Hd; [exact Hd | exact (rlt_trans _ _ _ Hd H)].
Qed.

(** With the running least value as its bound, the check of an obstacle
    moves that least value as the check with the bound [REAL_MAX] would. *)
Lemma willViolateSphere_bound (c : AvoidSpheresConstraint)
  (character : Vector3 real) (p : BasicPath) (bound : real) (o : Sphere) :
  bound = REAL_MAX \/ rlt bound REAL_MAX = true ->
  nearer bound (fst (willViolateSphere c character p bound o))
  = nearer bound (fst (willViolateSphere c character p REAL_MAX o)).
Proof.
  intro Hb.
  pose proof (bound_not_above bound Hb) as Hmax.
  unfold willViolateSphere.
  destruct (negb (positionSet (pathGoal p))); [reflexivity |].
  destruct (rlt r0 (squareMagnitude _)); [| reflexivity].
  destruct (rlt (rsub _ _) _); [| reflexivity].
  match goal with
  | |- context [rlt r0 ?d && rlt ?d bound] =>
      destruct (rlt r0 d) eqn:E0; cbn [andb]; [| reflexivity];
      destruct (rlt d bound) eqn:E1; destruct (rlt d REAL_MAX) eqn:E2;
      cbn [fst]; unfold nearer; rewrite ?E1, ?Hmax; try reflexivity
  end.
  pose proof (below_bound _ _ Hb E1). congruence.
Qed.

(** ** The loop over the obstacles *)

(** What [fold_left nearer] returns is the start or a value of the
    list, and nothing of the list is below it. *)
Lemma nearer_least :
  forall (l : list real) (start : real),
    let result := fold_left nearer l start in
    (result = start \/ rlt result start = true /\ In result l) /\
    (forall v, In v l -> rlt v result = false).
Proof.
  induction l as [| v l IH]; intro start; cbn [fold_left].
  - split; [now left | intros v []].
  - destruct (IH (nearer start v)) as [Hres Hleast].
    unfold nearer in Hres, Hleast |- *.
    destruct (rlt v start) eqn:E; cbv zeta.
    + split.
      * right. destruct Hres as [-> | [Hlt Hin]].
        -- split; [exact E | now left].
        -- split; [exact (rlt_trans _ _ _ Hlt E) | now right].
      * intros x [<- | Hx]; [| now apply Hleast].
        destruct Hres as [-> | [Hlt _]];
          [apply rlt_irrefl | now apply rlt_asym].
    + split.
      * destruct Hres as [-> | [Hlt Hin]]; [now left |].
        right. split; [exact Hlt | now right].
      * intros x [<- | Hx]; [| now apply Hleast].
        destruct Hres as [-> | [Hlt _]]; [exact E |].
        destruct (rlt v (fold_left _ l start)) eqn:Ev; [| reflexivity].
        pose proof (rlt_trans _ _ _ Ev Hlt). congruence.
Qed.

Lemma willViolateLoop_least (character : Vector3 real) (p : BasicPath)
  (c0 : AvoidSpheresConstraint) :
  forall (obs : list Sphere) (c : AvoidSpheresConstraint) (priority : real),
    avoidMargin c = avoidMargin c0 ->
    priority = REAL_MAX \/ rlt priority REAL_MAX = true ->
    fst (willViolateLoop c character p priority obs)
    = fold_left nearer
        (map (fun o => fst (willViolateSphere c0 character p REAL_MAX o)) obs)
        priority.
Proof.
  induction obs as [| o rest IH]; intros c priority Hm Hp;
    cbn [willViolateLoop map fold_left]; [reflexivity |].
  pose proof (willViolateSphere_bound c character p priority o Hp) as Hv.
  rewrite (willViolateSphere_margin c c0 _ _ REAL_MAX o Hm) in Hv.
  assert (Hm1 : avoidMargin (snd (willViolateSphere c character p priority o))
                = avoidMargin c0).
  { destruct (willViolateSphere_cases c character p priority o)
      as [-> | (_ & _ & pos & ->)]; exact Hm. }
  destruct (willViolateSphere c character p priority o) as [v c1].
  cbn [fst snd] in Hv, Hm1.
  fold (nearer priority v). rewrite Hv.
  apply (IH c1); [exact Hm1 |].
  unfold nearer.
  destruct (rlt (fst (willViolateSphere c0 character p REAL_MAX o)) priority)
    eqn:E; [| exact Hp].
  right. exact (below_bound _ _ Hp E).
Qed.

(** A value the check of an obstacle returns with the bound [REAL_MAX]
    is finite and positive. *)
Lemma willViolateSphere_finite (c : AvoidSpheresConstraint)
  (character : Vector3 real) (p : BasicPath) (o : Sphere) :
  exists m e,
    fst (willViolateSphere c character p REAL_MAX o) = S754_finite false m e.
Proof.
  destruct (willViolateSphere_cases c character p REAL_MAX o)
    as [-> | (H0 & H1 & _)].
  - cbn [fst]. rewrite REAL_MAX_finite. eauto.
  - exact (positive_finite _ H0 H1).
Qed.

(** X16.  [willViolate] answers the least of the values of its
    obstacles, each checked as far as [REAL_MAX] whatever the
    [maxPriority] it is given: it is [REAL_MAX] or the value of one of
    the obstacles, and it is below or equal to [REAL_MAX] and to the
    value of every obstacle. *)
Theorem willViolate_least_of_obstacles (c : AvoidSpheresConstraint)
  (character : Vector3 real) (p : BasicPath) (maxPriority : real) :
  let value o := fst (willViolateSphere c character p REAL_MAX o) in
  let result := fst (willViolate c character p maxPriority) in
  result = fold_left nearer (map value (obstacles c)) REAL_MAX /\
  (result = REAL_MAX \/ exists o, In o (obstacles c) /\ result = value o) /\
  rle result REAL_MAX = true /\
  (forall o, In o (obstacles c) -> rle result (value o) = true).
Proof.
  intros value result.
  assert (Hval : result = fold_left nearer (map value (obstacles c)) REAL_MAX).
  { subst result. unfold willViolate.
    now apply (willViolateLoop_least character p c); [| left]. }
  destruct (nearer_least (map value (obstacles c)) REAL_MAX) as [Hres Hleast].
  cbv zeta in Hres, Hleast. rewrite <- Hval in Hres, Hleast.
  assert (Hfin : exists m e, result = S754_finite false m e).
  { destruct Hres as [-> | [_ Hin]];
      [rewrite REAL_MAX_finite; eauto |].
    apply in_map_iff in Hin as (o & <- & _).
    apply willViolateSphere_finite. }
  destruct Hfin as (m & e & Hfin).
  split; [exact Hval |]. split; [| split].
  - destruct Hres as [-> | [_ Hin]]; [now left |].
    right. apply in_map_iff in Hin as (o & Ho & Hin). now exists o.
  - destruct Hres as [-> | [Hlt _]].
    + rewrite REAL_MAX_finite. apply rle_finite. apply rlt_irrefl.
    + rewrite Hfin, REAL_MAX_finite in *. apply rle_finite.
      now apply rlt_asym.
  - intros o Ho.
    destruct (willViolateSphere_finite c character p o) as (m' & e' & Hv).
    fold (value o) in Hv.
    pose proof (Hleast (value o) (in_map value _ o Ho)) as Hnot.
    rewrite Hfin, Hv in *. now apply rle_finite.
Qed.

Lemma willViolateLoop_state (character : Vector3 real) (p : BasicPath) :
  forall (obs : list Sphere) (c : AvoidSpheresConstraint) (priority : real),
    priority = REAL_MAX \/ rlt priority REAL_MAX = true ->
    let result := fst (willViolateLoop c character p priority obs) in
    let after := snd (willViolateLoop c character p priority obs) in
    (result = priority /\ after = c \/
     rlt result priority = true /\ rlt r0 result = true /\
     positionSet (suggestion after) = true) /\
    obstacles after = obstacles c /\
    avoidMargin after = avoidMargin c.
Proof.
  induction obs as [| o rest IH]; intros c priority Hp;
    cbn [willViolateLoop].
  - cbn [fst snd]. split; [now left | now split].
  - destruct (willViolateSphere_cases c character p priority o)
      as [-> | (Hpos & Hlt & pos & Hstate)].
    + rewrite (bound_not_above priority Hp). exact (IH c priority Hp).
    + destruct (willViolateSphere c character p priority o) as [v c1].
      cbn [fst snd] in Hpos, Hlt, Hstate. subst c1. rewrite Hlt.
      destruct (IH (setSuggestion c pos) v) as (Hres & Hobs & Hmar);
        [right; exact (below_bound _ _ Hp Hlt) |].
      cbv zeta in Hres, Hobs, Hmar |- *.
      split; [| split; [exact Hobs | exact Hmar]].
      right. destruct Hres as [[-> ->] | (Hless & Hpos' & Hset)].
      * split; [exact Hlt |]. split; [exact Hpos | reflexivity].
      * split; [exact (rlt_trans _ _ _ Hless Hlt) |].
        split; [exact Hpos' | exact Hset].
Qed.


(** X17.  What [willViolate] leaves in the constraint.  The obstacles
    and the margin are never changed.  When the answer is [REAL_MAX]
    (no violation) the cached suggestion is what it was before the
    call; when the answer is below [REAL_MAX] the cached suggestion,
    which [suggest] returns, has its position set. *)
Theorem willViolate_suggestion_cache (c : AvoidSpheresConstraint)
  (character : Vector3 real) (p : BasicPath) (maxPriority : real) :
  obstacles (snd (willViolate c character p maxPriority)) = obstacles c /\
  avoidMargin (snd (willViolate c character p maxPriority)) = avoidMargin c /\
  (fst (willViolate c character p maxPriority) = REAL_MAX ->
   snd (willViolate c character p maxPriority) = c) /\
  (rlt (fst (willViolate c character p maxPriority)) REAL_MAX = true ->
   positionSet
     (suggest (snd (willViolate c character p maxPriority)) p) = true).
Proof.
  unfold willViolate, suggest.
  destruct (willViolateLoop_state character p (obstacles c) c REAL_MAX)
    as (Hres & Hobs & Hmar); [now left |].
  cbv zeta in Hres, Hobs, Hmar.
  split; [exact Hobs |]. split; [exact Hmar |]. split.
  - intro Hmax. destruct Hres as [[_ Hc] | (Hlt & _)]; [exact Hc |].
    rewrite Hmax, rlt_irrefl in Hlt. discriminate.
  - intro Hlt. destruct Hres as [[Hmax _] | (_ & _ & Hset)]; [| exact Hset].
    rewrite Hmax, rlt_irrefl in Hlt. discriminate.
Qed.

End AvoidSpheresExtras.

(* ================================================================== *)
(** * Properties of the basic components in the pipe *)

Module BasicPipeExtras.
Import Pipeline PipelineSetup Single AvoidSpheres BasicPipe.
Import SingleFacts AvoidSpheresFacts AvoidSpheresExtras.

Local Open Scope nat_scope.

(** The goal the one targeter of the pipe hands to the negotiation. *)
Lemma fixed_goal_merged (goal uninitGoal : Goal real) :
  positionSet goal = true ->
  positionSet (copyChannels (newGoal uninitGoal) goal) = true /\
  position (copyChannels (newGoal uninitGoal) goal) = position goal.
Proof. intro Hset. cbn. now rewrite Hset. Qed.

(** X20.  A violation at or beyond the goal does not deflect.  In the
    pipe of the demo (fixed-goal targeter, sphere-avoidance constraint,
    basic actuator), when the goal has a position and the constraint
    reports nothing nearer than the goal ([REAL_MAX] included), the run
    ends in its first step: the output is the seek steering toward the
    goal, the fallback is not called, and the constraint keeps whatever
    suggestion its check cached. *)
Theorem basicPipe_ignores_far_violation
  (goal : Goal real) (maxAcceleration : real) (uninit : BasicPath)
  (steps : nat) (fb : option (SteeringBehaviour real BasicWorld))
  (uninitGoal : Goal real) (st : PipeState real BasicWorld BasicPath) :
  positionSet goal = true ->
  steps <> 0 ->
  let ch := character (world st) in
  let p1 := mkPath ch (copyChannels (newGoal uninitGoal) goal) in
  rlt (fst (willViolate (avoiding (world st)) ch p1 (basicMaxPriority p1)))
      (basicMaxPriority p1) = false ->
  exists ev,
    basicSteering goal maxAcceleration uninit steps fb uninitGoal st
    = Ok (mkState
            (mkWorld ch (snd (willViolate (avoiding (world st)) ch p1
                                (basicMaxPriority p1))))
            (Some p1)
            (setFlag 0 false (suggestionUsed st))
            (seekSteering ch (position goal) maxAcceleration (output st)),
          ev) /\
    iterations ev = 1 /\
    calls isActuatorSteering ev = 1 /\
    calls isFallback ev = 0.
Proof.
  intros Hset Hsteps ch p1 Hfar.
  destruct steps as [| steps]; [congruence |].
  destruct (fixed_goal_merged goal uninitGoal Hset) as [Hpos Htarget].
  unfold basicSteering, getSteering, basicPipe.
  cbn [targeters decomposers constraints constraintSteps fallback actuator
       runTargeters fixedGoalTargeter getGoal].
  assert (Hmerge : canMergeGoals (newGoal uninitGoal) goal = true)
    by reflexivity.
  rewrite Hmerge. unfold updateGoal. rewrite Hmerge.
  cbn [bind runDecomposers].
  assert (Hloop : forall p0 : BasicPath,
             negotiate rlt r0 pathMaxPriority
               (mkPipe (basicActuator maxAcceleration uninit)
                       [fixedGoalTargeter goal] [] [avoidSpheresConstraint]
                       (S steps) fb)
               (S steps) 0 (copyChannels (newGoal uninitGoal) goal) None p0
               (mkState (world st) (Some p0) (suggestionUsed st) (output st))
             = Ok (Returned,
                   mkState
                     (mkWorld ch (snd (willViolate (avoiding (world st)) ch p1
                                         (basicMaxPriority p1))))
                     (Some p1)
                     (setFlag 0 false (suggestionUsed st))
                     (seekSteering ch (position goal) maxAcceleration
                                   (output st)),
                   [CallGetPath (copyChannels (newGoal uninitGoal) goal);
                    CallWillViolate 0 (basicMaxPriority p1);
                    CallActuatorSteering p1])).
  { intro p0. cbn [negotiate actuator basicActuator getPath world constraints].
    fold ch. fold p1. unfold pathMaxPriority at 1.
    cbn [checkConstraints Nat.eqb avoidSpheresConstraint willViolate
         Pipeline.willViolate shortestViolation scanWorld scanFlags
         violatingConstraint].
    fold ch.
    destruct (willViolate (avoiding (world st)) ch p1 (basicMaxPriority p1))
      as [v c1] eqn:Ev.
    cbn [fst snd] in Hfar |- *.
    rewrite Hfar, andb_false_r.
    cbn [shortestViolation scanWorld scanFlags violatingConstraint app].
    unfold pathMaxPriority.
    rewrite rlt_irrefl.
    cbn [actuatorSteering basicActuator output world character
         suggestionUsed].
    subst p1. cbn [pathGoal]. rewrite Hpos, Htarget. reflexivity. }
  destruct (path st) as [p0 |].
  - rewrite (Hloop p0). cbn [bind].
    eexists. split; [reflexivity |]. repeat split.
  - cbn [createPathObject basicActuator].
    rewrite (Hloop _). cbn [bind].
    eexists. split; [reflexivity |]. repeat split.
Qed.


(** ** The pipe of the demo in the scene *)

Lemma basicPipe_ignores_far_violation_witness :
  exists st' ev,
    basicSteering (pathGoal scenePath) (ofZ 50) scenePath 100 None
                  (pathGoal scenePath) (sceneState rock)
    = Ok (st', ev) /\
    output st' = mkOutput (vectorOfZ 50 0 0) r1 /\
    iterations ev = 1.
Proof.
  destruct (basicPipe_ignores_far_violation (pathGoal scenePath) (ofZ 50)
              scenePath 100 None (pathGoal scenePath) (sceneState rock)
              eq_refl)
    as (ev & Hrun & Hit & _).
  - discriminate.
  - vm_compute. reflexivity.
  - eexists; eexists. split; [exact Hrun |].
    split; [vm_compute; reflexivity | exact Hit].
Defined.


End BasicPipeExtras.
